(** * Data sketches of [S14F_Data_Sketches.ipynb]

    A shallow embedding of the sketch code of the notebook
    (the toy hash [string_hash], the class [MorrisCounter] and the
    averaged ensemble [mcs]) together with models of the two sketches
    the notebook only imports (a cardinality estimator with [merge] and a
    scalable Bloom filter), followed by the properties proved about them.

    Conventions of the embedding:
    - a Python [int] is a [Z] (or an [N] where the code keeps it
      non-negative); Python integers do not wrap;
    - a Python [str] is the list of its code points, [ord] reads one;
    - an operation that may raise returns a [result];
    - a Python [float] is the rational it stands for, in [Q]: the values
      that occur in [MorrisCounter.add] are dyadic rationals, and a
      division that rounds is followed by the rounding to binary64;
    - the hidden generator behind [random()] is an explicit tape of draws
      with a cursor, threaded through the calls. *)

From Stdlib Require Import ZArith NArith QArith Qabs Lia Bool String Ascii.
From stdpp Require Import base list.

Local Open Scope Z_scope.

(** ** Python exceptions and fallible results *)

Module Py.

Inductive exn : Type :=
  | ZeroDivisionError
  | OverflowError
  | IndexError
  | ConfigurationError
  | ConfigurationMismatch.

Inductive result (A : Type) : Type :=
  | Ok (a : A)
  | Raise (e : exn).

Arguments Ok {A} a.
Arguments Raise {A} e.

Definition bind {A B : Type} (r : result A) (k : A -> result B) : result B :=
  match r with
  | Ok a => k a
  | Raise e => Raise e
  end.

Definition is_ok {A : Type} (r : result A) : bool :=
  match r with
  | Ok _ => true
  | Raise _ => false
  end.

(** A character of a [str] is a Unicode code point. *)
Definition char : Type := N.

Definition ord (ch : char) : Z := Z.of_N ch.

(** The code points of a literal, for the notebook's example sentences. *)
Fixpoint str (s : string) : list char :=
  match s with
  | EmptyString => []
  | String a s' => N_of_ascii a :: str s'
  end.

(** The builtin [sum]: starts from 0 and adds from the left. *)
Definition sum (xs : list Z) : Z := fold_left Z.add xs 0.

(** [a % n] on integers: the sign follows the divisor, as [Z.modulo] does;
    a zero divisor raises. *)
Definition mod_ (a n : Z) : result Z :=
  if n =? 0 then Raise ZeroDivisionError else Ok (a mod n).

End Py.

Import Py.

(** ** The toy hash function

<<
def string_hash(word, n):
    return sum(ord(char) for char in word) % n
>> *)

Definition string_hash (word : list char) (n : Z) : result Z :=
  mod_ (sum (map ord word)) n.

(** The output range selected by a modulus [n]: [0 <= r < n] for a
    positive [n], [n < r <= 0] for a negative one. *)
Definition in_range (n r : Z) : Prop :=
  (0 < n -> 0 <= r < n) /\ (n < 0 -> n < r <= 0).

(** ** The random source

    [random.random()] returns [k / 2^53] for a 53-bit integer [k], so its
    values are the multiples of [2^-53] in [[0, 1)]. *)

Record draw : Type := mkDraw {
  bits53 : N;
  bits53_range : (bits53 <? 2 ^ 53)%N = true
}.

Definition value (u : draw) : Q := Z.of_N (bits53 u) # (2 ^ 53).

(** The generator: an infinite tape of draws and the cursor of the next
    one. Every call of [random()] reads one cell and moves the cursor. *)
Record Rng : Type := mkRng {
  tape : nat -> draw;
  pos : nat
}.

Definition next_draw (g : Rng) : draw := tape g (pos g).

Definition advance (n : nat) (g : Rng) : Rng :=
  {| tape := tape g; pos := (pos g + n)%nat |}.

(** Two draws, [0.0] and [0.5], and the generator that repeats one draw,
    for the sample runs below. *)
Definition zero_draw : draw := mkDraw 0 eq_refl.

Definition half_draw : draw := mkDraw (2 ^ 52) eq_refl.

Definition const_rng (u : draw) : Rng := {| tape := fun _ => u; pos := 0 |}.

(** [x < y] on floats, as a Python [bool]. *)
Definition Qltb (x y : Q) : bool := negb (Qle_bool y x).

(** A [bool] used as an [int]: [True] is 1 and [False] is 0. *)
Definition int_of_bool (b : bool) : N := if b then 1%N else 0%N.

(** [1/(2**e)] for a non-negative [int] [e]: true division of two
    integers gives the binary64 value nearest to the exact quotient.
    [2^-e] is itself a binary64 value down to the smallest subnormal,
    [2^-1074]; [2^-1075] lies half-way between 0 and [2^-1074] and the tie
    goes to the even significand, 0; every smaller quotient is nearest
    to 0 as well. *)
Definition float_inv_pow2 (e : N) : Q :=
  if (e <=? 1074)%N then 1 / inject_Z (2 ^ Z.of_N e) else 0.

(** [sys.maxsize] of a 64-bit CPython: the largest value the builtin
    [len] returns. *)
Definition sys_maxsize : Z := 2 ^ 63 - 1.

(** ** Rounding to binary64

    The nearest value with a 53-bit significand, ties to the even
    significand: the rounding of every binary64 operation whose result
    lies in the normal range, as the quotients below do. *)

Module Float.

(** [n/d] for [d > 0], to the nearest integer, ties to the even one. *)
Definition round_half_even (n d : Z) : Z :=
  let fl := n / d in
  match 2 * (n mod d) ?= d with
  | Lt => fl
  | Gt => fl + 1
  | Eq => if Z.even fl then fl else fl + 1
  end.

(** [a/b * 2^t] as a fraction. *)
Definition scale2 (a b t : Z) : Z * Z :=
  if 0 <=? t then (a * 2 ^ t, b) else (a, b * 2 ^ (- t)).

(** The exponent [e] with [2^e <= a/b < 2^(e+1)], for positive [a] and
    [b]. *)
Definition binade (a b : Z) : Z :=
  let e0 := Z.log2 a - Z.log2 b in
  let '(n, d) := scale2 a b (- e0) in
  if d <=? n then e0 else e0 - 1.

(** [a/b] is scaled into [[2^52, 2^53)], rounded to an integer and scaled
    back. *)
Definition round53_pos (a b : Z) : Q :=
  let t := 52 - binade a b in
  let '(n, d) := scale2 a b t in
  let m := round_half_even n d in
  Qred (if 0 <=? t then m # Z.to_pos (2 ^ t) else inject_Z (m * 2 ^ (- t))).

Definition round53 (q : Q) : Q :=
  match Qnum q with
  | Z0 => 0%Q
  | Zpos a => round53_pos (Zpos a) (Zpos (Qden q))
  | Zneg a => (- round53_pos (Zpos a) (Zpos (Qden q)))%Q
  end.

End Float.

(** [np.mean] of a non-empty list of integers: numpy adds the entries as
    binary64 and divides the sum by the count, one correctly rounded
    division. For a list of positive integers whose sum is below [2^53]
    every partial sum is an integer below [2^53], so the additions are
    exact in whatever order numpy makes them, and the result is the
    exact mean rounded once. The statements below read the value of
    [np_mean] only for such lists; larger sums, where numpy also rounds
    the additions, and the empty list, where numpy returns [nan], are
    outside of it. *)
Definition np_mean (xs : list Z) : Q :=
  Float.round53 (inject_Z (sum xs) / inject_Z (Z.of_nat (length xs))).

(** ** The Morris counter

<<
class MorrisCounter:
    def __init__(self, c=0):
        self.c = c

    def __len__(self):
        return 2 ** self.c

    def add(self, item):
        self.c += random() < 1/(2**self.c)
>> *)

Module Morris.

Record MorrisCounter : Type := mkMorrisCounter { c : N }.

(** A method runs on the receiver and the generator and may change both. *)
Definition State : Type := MorrisCounter * Rng.

Definition M (A : Type) : Type := State -> A * State.

#[export] Instance M_ret : MRet M := fun A a s => (a, s).

#[export] Instance M_bind : MBind M := fun A B k m s =>
  let '(a, s') := m s in k a s'.

(** [self.c] *)
Definition get_c : M N := fun s => (c (fst s), s).

(** [self.c = v] *)
Definition set_c (v : N) : M unit := fun s => (tt, ({| c := v |}, snd s)).

(** [random()] *)
Definition random : M Q := fun s =>
  (value (next_draw (snd s)), (fst s, advance 1 (snd s))).

Definition __init__ (c0 : N) : MorrisCounter := {| c := c0 |}.

(** [MorrisCounter()], with the default [c=0]. *)
Definition new : MorrisCounter := __init__ 0.

Definition __len__ : M Z :=
  e ← get_c;
  mret (2 ^ Z.of_N e).

(** The augmented assignment reads [self.c], evaluates the comparison
    (the call of [random()] first, then the quotient, which reads
    [self.c] again), adds and stores. *)
Definition add {Item : Type} (item : Item) : M unit :=
  e ← get_c;
  u ← random;
  e' ← get_c;
  set_c (e + int_of_bool (Qltb u (float_inv_pow2 e')))%N.

(** The exponent after one [add] at exponent [e] with draw [u]. *)
Definition step_c (e : N) (u : draw) : N :=
  (e + int_of_bool (Qltb (value u) (float_inv_pow2 e)))%N.

(** [for word in items: mc.add(word)] *)
Fixpoint add_each {Item : Type} (items : list Item) : M unit :=
  match items with
  | [] => mret tt
  | item :: rest => _ ← add item; add_each rest
  end.

(** The builtin [len(mc)]: calls [mc.__len__()] and raises
    [OverflowError] when the answer does not fit an index. *)
Definition len (s : State) : result Z * State :=
  let '(n, s') := __len__ s in
  ((if n <=? sys_maxsize then Ok n else Raise OverflowError), s').

End Morris.

(** ** The averaged ensemble

<<
mcs = [MorrisCounter() for i in range(10)]
for i, word in enumerate(word_list):
    for j in range(10):
        mcs[j].add(word)
    estimate = np.mean([len(m) for m in mcs])
>>
    The number of counters, 10 in the notebook, is the parameter [k]. *)

Module Ensemble.

Import Morris.

(** The list [mcs] of counter objects and the shared generator. *)
Definition State : Type := list MorrisCounter * Rng.

Definition EM (A : Type) : Type := State -> result (A * State).

#[export] Instance EM_ret : MRet EM := fun A a s => Ok (a, s).

#[export] Instance EM_bind : MBind EM := fun A B k m s =>
  match m s with
  | Ok (a, s') => k a s'
  | Raise e => Raise e
  end.

Definition raise {A : Type} (e : exn) : EM A := fun _ => Raise e.

(** [mcs[j].meth(...)]: the method runs on the object stored at index
    [j], which is updated in place; a bad index raises. *)
Definition at_index {A : Type} (j : nat) (meth : M A) : EM A := fun s =>
  match fst s !! j with
  | None => Raise IndexError
  | Some mc =>
      let '(a, (mc', g')) := meth (mc, snd s) in
      Ok (a, (<[j := mc']> (fst s), g'))
  end.

(** [[MorrisCounter() for i in range(k)]] *)
Definition mcs_init (k : nat) : list MorrisCounter := replicate k new.

(** [for j in js: body(j)] *)
Fixpoint for_ (js : list nat) (body : nat -> EM unit) : EM unit :=
  match js with
  | [] => mret tt
  | j :: js' => _ ← body j; for_ js' body
  end.

(** [for j in range(k): mcs[j].add(word)] *)
Definition add_all {Item : Type} (k : nat) (word : Item) : EM unit :=
  for_ (seq 0 k) (fun j => at_index j (add word)).

(** [len(mcs[j])] *)
Definition len_at (j : nat) : EM Z :=
  n ← at_index j __len__;
  if n <=? sys_maxsize then mret n else raise OverflowError.

(** [[len(m) for m in mcs]], the elements visited in order. *)
Fixpoint lens (js : list nat) : EM (list Z) :=
  match js with
  | [] => mret []
  | j :: js' => n ← len_at j; ns ← lens js'; mret (n :: ns)
  end.

(** [np.mean([len(m) for m in mcs])] *)
Definition estimate : EM Q := fun s =>
  (ns ← lens (seq 0 (length (fst s))); mret (np_mean ns)) s.

(** The sum and the arithmetic mean of the [2^c_j], as exact numbers:
    what the estimate approximates. *)
Definition total (mcs : list MorrisCounter) : Z :=
  sum (map (fun mc => 2 ^ Z.of_N (c mc)) mcs).

Definition exact_mean (mcs : list MorrisCounter) : Q :=
  inject_Z (total mcs) / inject_Z (Z.of_nat (length mcs)).

End Ensemble.

(** ** The cardinality estimator

    The notebook takes [HyperLogLog] from the [hyperloglog] package and
    only calls its constructor, [add] and [len]; [merge] is described by
    the specification alone. *)

Module CardinalityEstimator.

(** Modelled from the spec: the estimator of section 4.3, whose code is
    not among the sources: "a fixed-size array of [m] small registers";
    [m] is the length of the array. *)
Record CardinalityEstimator : Type := mkEstimator { register : list N }.

Definition m (A : CardinalityEstimator) : nat := length (register A).

(** Modelled from the spec: [merge(other)] of section 4.3, absent from the
    sources: it "requires identical [m]" and "produces a new estimator
    whose registers are the element-wise maximum of the two inputs";
    with different register counts it "fails with a
    ConfigurationMismatch condition". *)
Definition merge (A B : CardinalityEstimator) : result CardinalityEstimator :=
  if decide (m A = m B)
  then Ok {| register := zip_with N.max (register A) (register B) |}
  else Raise ConfigurationMismatch.

(** [X.estimate()] on the outcome of a merge. *)
Definition estimate_of (estimate : CardinalityEstimator -> Q)
    (r : result CardinalityEstimator) : result Q :=
  bind r (fun X => Ok (estimate X)).

End CardinalityEstimator.

(** ** The membership filter

    The notebook takes [ScalableBloomFilter] from the [pybloom] package
    and only calls its constructor, [add] and [in]. *)

Module MembershipFilter.

Section Filter.

Context {Item : Type}.

(** Modelled from the spec: the HashFunction of section 4.1 as the filter
    uses it, [hash(seed, item)], an unsigned integer; the package's hash
    is not among the sources. *)
Variable hash : N -> Item -> N.

(** Modelled from the spec: the filter of sections 3 and 4.4, whose code
    is not among the sources: "a fixed-length bit vector of size [k] and
    a list of [n] independent hash seeds". *)
Record BloomFilter : Type := mkFilter {
  bits : list bool;
  seeds : list N
}.

(** Modelled from the spec: construction from the bit-vector size and the
    seeds given directly; zero capacity "fails with a ConfigurationError
    at construction time". *)
Definition new_filter (k : nat) (sds : list N) : result BloomFilter :=
  if (k =? 0)%nat then Raise ConfigurationError
  else Ok {| bits := replicate k false; seeds := sds |}.

(** Modelled from the spec: the bit position of an item under one seed,
    "[hash(seed_i, item) mod k]". *)
Definition position (f : BloomFilter) (seed : N) (x : Item) : nat :=
  N.to_nat (hash seed x mod N.of_nat (length (bits f))).

(** Setting the bits at a list of positions, one after the other. *)
Definition set_bits (ps : list nat) (b : list bool) : list bool :=
  fold_left (fun b' p => <[p := true]> b') ps b.

(** Modelled from the spec: [add(item)] of section 4.4: "for [i] in
    [0..n], compute [hash(seed_i, item) mod k], set that bit to 1". *)
Definition add (x : Item) (f : BloomFilter) : BloomFilter :=
  {| bits := set_bits (map (fun sd => position f sd x) (seeds f)) (bits f);
     seeds := seeds f |}.

Definition bit_set (f : BloomFilter) (p : nat) : bool :=
  match bits f !! p with
  | Some true => true
  | _ => false
  end.

(** Modelled from the spec: [contains(item)] of section 4.4: "compute the
    same bit position; if any is 0, return false; if all are 1, return
    true". *)
Definition contains (x : Item) (f : BloomFilter) : bool :=
  forallb (fun sd => bit_set f (position f sd x)) (seeds f).

(** Modelled from the spec: the growth policy of the scalable variant,
    which section 4.4 leaves open: [full] is the test "the filter's
    estimated fill ratio crosses a threshold" and [adjust] gives the size
    and the seeds of the "new filter with adjusted [n]/[k]". *)
Variable full : BloomFilter -> bool.
Variable adjust : BloomFilter -> nat * list N.

(** Modelled from the spec: the scalable variant of section 4.4, a chain
    of filters: the newest, into which items go, and the older ones. *)
Record ScalableBloomFilter : Type := mkScalable {
  current : BloomFilter;
  older : list BloomFilter
}.

Definition sbf_new (k : nat) (sds : list N) : result ScalableBloomFilter :=
  bind (new_filter k sds) (fun f => Ok {| current := f; older := [] |}).

(** Modelled from the spec: "when the filter's estimated fill ratio
    crosses a threshold, allocate a new filter with adjusted [n]/[k] and
    chain it"; "[add] always inserts into the newest/current filter". *)
Definition sbf_add (x : Item) (s : ScalableBloomFilter) : result ScalableBloomFilter :=
  if full (current s)
  then bind (new_filter (fst (adjust (current s))) (snd (adjust (current s))))
            (fun f => Ok {| current := add x f;
                            older := current s :: older s |})
  else Ok {| current := add x (current s); older := older s |}.

(** Modelled from the spec: "[contains] checks all chained filters
    (OR)". *)
Definition sbf_contains (x : Item) (s : ScalableBloomFilter) : bool :=
  contains x (current s) || existsb (contains x) (older s).

(** [for y in ys: sbf.add(y)] *)
Fixpoint sbf_add_each (ys : list Item) (s : ScalableBloomFilter) : result ScalableBloomFilter :=
  match ys with
  | [] => Ok s
  | y :: ys' => bind (sbf_add y s) (sbf_add_each ys')
  end.

(** A filter as the constructor makes it: the bit vector is not empty. *)
Definition wf (f : BloomFilter) : Prop := (0 < length (bits f))%nat.

Definition sbf_wf (s : ScalableBloomFilter) : Prop :=
  wf (current s) /\ Forall wf (older s).

End Filter.

(** A hash and a growth policy for the sample runs: the seed added to the
    sum of the code points, a filter counted full when half of its bits
    are set, and a next filter of twice the size on the same seeds. *)
Definition sample_hash (seed : N) (word : list char) : N :=
  (seed + Z.to_N (sum (map ord word)))%N.

Definition sample_full (f : BloomFilter) : bool :=
  (length (bits f) <=? 2 * length (filter (fun b => b = true) (bits f)))%nat.

Definition sample_adjust (f : BloomFilter) : nat * list N :=
  ((2 * length (bits f))%nat, seeds f).

End MembershipFilter.

(** ** Reading the words

<<
def flatten(xss):
    return (x for xs in xss for x in xs)

with open('data/Ulysses.txt') as f:
    word_list = list(flatten(line.split() for line in f))
>>
    The generator is read to its end by [list]; the file is the list of
    its lines and [split] is the splitting of one line. *)

Fixpoint flatten {A : Type} (xss : list (list A)) : list A :=
  match xss with
  | [] => []
  | xs :: rest => foldr cons (flatten rest) xs
  end.

Definition word_list {Line Word : Type} (split : Line -> list Word)
    (f : list Line) : list Word :=
  flatten (map split f).

(** ** The table of the averaged ensemble

<<
for i, word in enumerate(word_list):
    for j in range(10):
        mcs[j].add(word)
    estimate = np.mean([len(m) for m in mcs])
    if i%int(.2e5)==0:
        print('%8d\t%8d\t%.2f' % (i, estimate, 0 if i==0 else abs(i - estimate)/i))
>>
    A printed line is kept as the triple of values handed to the
    format. *)

Module Tables.

Import Morris Ensemble.

Record row : Type := mkRow {
  row_i : Z;
  row_estimate : Q;
  row_error : Q
}.

(** [0 if i==0 else abs(i - estimate)/i], with a binary64 [estimate]:
    [i] is converted to binary64, and the difference and the quotient are
    rounded. *)
Definition rel_error (i : Z) (est : Q) : Q :=
  if i =? 0 then 0%Q
  else let fi := Float.round53 (inject_Z i) in
       Float.round53 (Qabs (Float.round53 (fi - est)) / fi).

(** [int(.2e5)] *)
Definition every : Z := 20000.

(** The loop from index [i] on; the lines come out in the order of the
    iterations. *)
Fixpoint averaged_loop {Item : Type} (k : nat) (i : Z) (words : list Item) : EM (list row) :=
  match words with
  | [] => mret []
  | word :: rest =>
      _ ← add_all k word;
      est ← estimate;
      rows ← averaged_loop k (i + 1) rest;
      mret (if i mod every =? 0
            then {| row_i := i; row_estimate := est; row_error := rel_error i est |} :: rows
            else rows)
  end.

(** *** The table of the single counter

<<
for i, word in enumerate(word_list):
    mc.add(word)
    if i%int(.2e5)==0:
        print('%8d\t%8d\t%.2f' % (i, len(mc), 0 if i==0 else abs(i - len(mc))/i))
>> *)

(** Statements on one counter that may raise. *)
Definition CM (A : Type) : Type := Morris.State -> result (A * Morris.State).

#[export] Instance CM_ret : MRet CM := fun A a s => Ok (a, s).

#[export] Instance CM_bind : MBind CM := fun A B k m s =>
  match m s with
  | Ok (a, s') => k a s'
  | Raise e => Raise e
  end.

(** A method call that cannot raise. *)
Definition call {A : Type} (meth : M A) : CM A := fun s => Ok (meth s).

(** [len(mc)] *)
Definition len_mc : CM Z := fun s =>
  match len s with
  | (Ok n, s') => Ok (n, s')
  | (Raise e, _) => Raise e
  end.

(** The arguments of the format, evaluated from left to right; [len(mc)]
    is called a second time when [i] is not 0. The difference of the two
    integers is exact and their quotient is rounded once. *)
Definition counter_row (i : Z) : CM row :=
  n ← len_mc;
  err ← (if i =? 0 then mret 0%Q
         else n' ← len_mc;
              mret (Float.round53 (Qabs (inject_Z (i - n')) / inject_Z i)));
  mret {| row_i := i; row_estimate := inject_Z n; row_error := err |}.

Fixpoint counter_loop {Item : Type} (i : Z) (words : list Item) : CM (list row) :=
  match words with
  | [] => mret []
  | word :: rest =>
      _ ← call (add word);
      printed ← (if i mod every =? 0
                 then r ← counter_row i; mret [r]
                 else mret []);
      rows ← counter_loop (i + 1) rest;
      mret (printed ++ rows)
  end.

(** The same loop with its output kept: the lines printed up to the end
    of the loop or up to the exception that stops it, and how the loop
    ends. A line is printed once its arguments are evaluated; an
    exception among them stops the loop before the line. *)
Fixpoint counter_run {Item : Type} (i : Z) (words : list Item) (s : Morris.State)
    : list row * result Morris.State :=
  match words with
  | [] => ([], Ok s)
  | word :: rest =>
      let s1 := snd (add word s) in
      if i mod every =? 0
      then match counter_row i s1 with
           | Ok (r, s2) =>
               let '(rows, out) := counter_run (i + 1) rest s2 in
               (r :: rows, out)
           | Raise e => ([], Raise e)
           end
      else counter_run (i + 1) rest s1
  end.

(** What a printed line says: its index is a multiple of 20000 inside
    the run, and its estimate is a power of two whose exponent lies
    between the exponents of the counter before and after the run. *)
Definition row_ok (i : Z) (n : nat) (lo hi : N) (r : row) : Prop :=
  row_i r mod every = 0
  /\ i <= row_i r < i + Z.of_nat n
  /\ exists e, (lo <= e <= hi)%N /\ row_estimate r = inject_Z (2 ^ Z.of_N e).

(** The draws that counter [j] of [k] reads in successive rounds, as a
    generator of their own: the cells [j], [k + j], [2k + j], ... from
    the cursor. *)
Definition stride (k j : nat) (g : Rng) : Rng :=
  {| tape := fun i => tape g (pos g + i * k + j)%nat; pos := 0 |}.

End Tables.

(** ** The smallest of [k] random hashes

<<
for i in range(1, 15):
    k = 2**i
    hashes = [''.join(map(str, np.random.randint(0,2,32))) for i in range(k)]
    print('%6d\t%s' % (k, min(hashes)))
>>
    numpy's generator is a tape of bits with a cursor; an entry of
    [randint(0,2,32)] is 0 or 1, kept as a [bool]. *)

Module LogLog.

Record BitRng : Type := mkBitRng {
  bit_tape : nat -> bool;
  bit_pos : nat
}.

(** [np.random.randint(0,2,n)] *)
Definition randint01 (n : nat) (g : BitRng) : list bool * BitRng :=
  (map (fun i => bit_tape g (bit_pos g + i)%nat) (seq 0 n),
   {| bit_tape := bit_tape g; bit_pos := (bit_pos g + n)%nat |}).

(** [str(b)] for [b] in 0, 1: the character ['0'] or ['1']. *)
Definition digit (b : bool) : char := if b then 49%N else 48%N.

(** [''.join(map(str, bits))] *)
Definition join_bits (bits : list bool) : list char := map digit bits.

(** [[''.join(map(str, np.random.randint(0,2,32))) for i in range(k)]] *)
Fixpoint hashes (k : nat) (g : BitRng) : list (list char) * BitRng :=
  match k with
  | O => ([], g)
  | S k' =>
      let '(bits, g1) := randint01 32 g in
      let '(hs, g2) := hashes k' g1 in
      (join_bits bits :: hs, g2)
  end.

(** [s < t] on [str]: the first differing code point decides, a proper
    prefix is smaller. *)
Fixpoint str_ltb (s t : list char) : bool :=
  match s, t with
  | _, [] => false
  | [], _ :: _ => true
  | a :: s', b :: t' =>
      if (a <? b)%N then true
      else if (b <? a)%N then false
      else str_ltb s' t'
  end.

(** The builtin [min] of a list of [str]: the first of the smallest
    items; [None] stands for the [ValueError] on an empty list. *)
Definition min_str (xs : list (list char)) : option (list char) :=
  match xs with
  | [] => None
  | x :: rest =>
      Some (fold_left (fun best y => if str_ltb y best then y else best) rest x)
  end.

(** One iteration of the loop: the pair handed to the format. *)
Definition demo_row (i : nat) (g : BitRng) : option (Z * list char) * BitRng :=
  let k := 2 ^ Z.of_nat i in
  let '(hs, g') := hashes (Z.to_nat k) g in
  (match min_str hs with
   | Some h => Some (k, h)
   | None => None
   end, g').

(** The run of ['0'] characters a string starts with. *)
Fixpoint leading_zeros (s : list char) : nat :=
  match s with
  | a :: s' => if (a =? 48)%N then S (leading_zeros s') else O
  | [] => O
  end.

(** A hash string of the demonstration: 32 characters, each ['0'] or ['1']. *)
Definition bit_string (s : list char) : Prop :=
  length s = 32%nat /\ Forall (fun ch => ch = 48%N \/ ch = 49%N) s.

End LogLog.

(** * Properties *)

(** ** [string_hash] *)

Lemma sum_from (xs : list Z) (a : Z) : fold_left Z.add xs a = a + sum xs.
Proof.
  unfold sum. revert a.
  induction xs as [|x xs IH]; intros a; simpl.
  - lia.
  - rewrite (IH (a + x)), (IH (0 + x)). lia.
Qed.

Lemma sum_cons (x : Z) (xs : list Z) : sum (x :: xs) = x + sum xs.
Proof. unfold sum at 1. simpl. apply sum_from. Qed.

Lemma sum_Permutation (xs ys : list Z) : xs ≡ₚ ys -> sum xs = sum ys.
Proof.
  induction 1 as [|x xs ys _ IH|x y xs|xs ys zs _ IH1 _ IH2].
  - reflexivity.
  - rewrite !sum_cons, IH. reflexivity.
  - rewrite !sum_cons. lia.
  - congruence.
Qed.

(** The notebook's printed table for "The quick brown fox jumps over the
    lazy dog." with [n = 10]. *)
Example string_hash_sentence :
  map (fun w => string_hash (str w) 10)
      ["The"; "quick"; "brown"; "fox"; "jumps"; "over"; "the"; "lazy"; "dog."]%string
  = map Ok [9; 1; 2; 3; 9; 4; 1; 8; 0].
Proof. reflexivity. Qed.

(** C6, as stated, fails: with the range parameter [n = 0] the call
    [string_hash("fox", 0)] raises [ZeroDivisionError] instead of
    producing a value. *)
Lemma string_hash_zero_modulus_raises :
  ~ (forall (word : list char) (n : Z), exists r, string_hash word n = Ok r)
  /\ string_hash (str "fox") 0 = Raise ZeroDivisionError.
Proof.
  split; [|reflexivity].
  intros H. destruct (H (str "fox") 0) as [r Hr]. discriminate Hr.
Qed.

(** C6 (amended): for every non-zero range parameter [n] and every word,
    [string_hash] produces a value, never an error; the value lies in the
    range fixed by [n]; and equal arguments give equal outputs. *)
Theorem string_hash_total_deterministic (word : list char) (n : Z) :
  n <> 0 ->
  (exists r, string_hash word n = Ok r /\ in_range n r)
  /\ (forall word' n', word' = word -> n' = n ->
        string_hash word' n' = string_hash word n).
Proof.
  intros Hn. split.
  - exists (sum (map ord word) mod n). split.
    + unfold string_hash, mod_.
      destruct (Z.eqb_spec n 0) as [E|_]; [contradiction|reflexivity].
    + split; intros Hs.
      * apply Z.mod_pos_bound; assumption.
      * apply Z.mod_neg_bound; assumption.
  - intros word' n' -> ->. reflexivity.
Qed.

Lemma string_hash_total_deterministic_witness :
  (exists r, string_hash (str "fox") 10 = Ok r /\ in_range 10 r)
  /\ (forall word' n', word' = str "fox" -> n' = 10 ->
        string_hash word' n' = string_hash (str "fox") 10).
Proof. apply (string_hash_total_deterministic (str "fox") 10). lia. Defined.

(** C10: [string_hash] depends only on the multiset of characters of its
    input: a word and any permutation of it hash alike under every
    modulus (a zero modulus raises for both). *)
Theorem string_hash_anagram (w w' : list char) (n : Z) :
  w ≡ₚ w' -> string_hash w n = string_hash w' n.
Proof.
  intros Hp. unfold string_hash. f_equal.
  apply sum_Permutation, fmap_Permutation, Hp.
Qed.

Lemma string_hash_anagram_witness :
  string_hash (str "listen") 10 = string_hash (str "silent") 10.
Proof.
  apply (string_hash_anagram (str "listen") (str "silent") 10).
  vm_compute.
  (* l i s t e n  ~  s i l e n t *)
  apply (Permutation_trans (l' := [115; 108; 105; 116; 101; 110]%N)).
  - change ([108; 105; 115; 116; 101; 110]%N) with ([108; 105]%N ++ 115%N :: [116; 101; 110]%N).
    symmetry. apply (Permutation_middle [108; 105]%N [116; 101; 110]%N 115%N).
  - constructor. apply (Permutation_trans (l' := [105; 108; 116; 101; 110]%N)).
    + constructor.
    + constructor. constructor.
      apply (Permutation_trans (l' := [101; 116; 110]%N)); [constructor|].
      constructor. constructor.
Defined.

(** ** The random source and the float comparison *)

Lemma Qltb_lt (x y : Q) : Qltb x y = true <-> (x < y)%Q.
Proof.
  unfold Qltb. rewrite negb_true_iff. split.
  - intros H. apply Qnot_le_lt. intros Hle.
    apply Qle_bool_iff in Hle. congruence.
  - intros H. destruct (Qle_bool y x) eqn:E; [|reflexivity].
    apply Qle_bool_iff in E. exfalso. exact (Qlt_not_le _ _ H E).
Qed.

Lemma Qltb_ge (x y : Q) : Qltb x y = false <-> (y <= x)%Q.
Proof.
  unfold Qltb. rewrite negb_false_iff. apply Qle_bool_iff.
Qed.

(** Every draw is a value of [[0, 1)]. *)
Lemma value_range (u : draw) : (0 <= value u)%Q /\ (value u < 1)%Q.
Proof.
  destruct u as [k Hk]. unfold value, Qle, Qlt. simpl.
  apply N.ltb_lt in Hk. split; [lia|].
  change (Z.pos (2 ^ 53)) with (Z.of_N (2 ^ 53)). lia.
Qed.

(** Down to [2^-1074] the quotient [1/(2**e)] is exact. *)
Lemma float_inv_pow2_exact (e : N) :
  (e <= 1074)%N -> float_inv_pow2 e = (1 / inject_Z (2 ^ Z.of_N e))%Q.
Proof.
  intros He. unfold float_inv_pow2.
  destruct (N.leb_spec e 1074) as [_|Hgt]; [reflexivity|lia].
Qed.

(** Below it the quotient underflows to [0.0]. *)
Lemma float_inv_pow2_underflow (e : N) :
  (1074 < e)%N -> float_inv_pow2 e = 0%Q.
Proof.
  intros He. unfold float_inv_pow2.
  destruct (N.leb_spec e 1074) as [Hle|_]; [lia|reflexivity].
Qed.

(** ** Rounding to binary64 *)

Lemma round_half_even_exact (z d : Z) : 0 < d -> Float.round_half_even (z * d) d = z.
Proof.
  intros Hd. unfold Float.round_half_even.
  rewrite Z.mod_mul by lia. rewrite Z.div_mul by lia.
  destruct (Z.compare_spec (2 * 0) d); try lia. 
Qed.

Lemma round_half_even_bound (n d : Z) :
  0 < d -> 2 * Z.abs (Float.round_half_even n d * d - n) <= d.
Proof.
  intros Hd. unfold Float.round_half_even.
  pose proof (Z.div_mod n d ltac:(lia)) as Hdm.
  pose proof (Z.mod_pos_bound n d Hd) as Hr.
  destruct (Z.compare_spec (2 * (n mod d)) d) as [E|L|G].
  - destruct (Z.even (n / d)); nia.
  - nia.
  - nia.
Qed.

Lemma binade_bounds (a b : Z) :
  0 < b -> b <= a ->
  0 <= Float.binade a b /\ 2 ^ Float.binade a b * b <= a < 2 ^ (Float.binade a b + 1) * b.
Proof.
  intros Hb Hab. unfold Float.binade, Float.scale2.
  assert (Ha : 0 < a) by lia.
  pose proof (Z.log2_spec a Ha) as [Ha1 Ha2].
  pose proof (Z.log2_spec b Hb) as [Hb1 Hb2].
  pose proof (Z.log2_le_mono b a Hab) as Hmono.
  pose proof (Z.log2_nonneg b) as Hlb.
  set (la := Z.log2 a) in *. set (lb := Z.log2 b) in *.
  assert (Hsplit : 2 ^ la = 2 ^ (la - lb) * 2 ^ lb).
  { rewrite <- Z.pow_add_r by lia. f_equal. lia. }
  assert (Hp0 : 0 < 2 ^ (la - lb)) by (apply Z.pow_pos_nonneg; lia).
  assert (Hsucc_a : 2 ^ Z.succ la = 2 * 2 ^ la) by (apply Z.pow_succ_r; lia).
  assert (Hsucc_b : 2 ^ Z.succ lb = 2 * 2 ^ lb) by (apply Z.pow_succ_r; lia).
  assert (Hscaled : (if 0 <=? - (la - lb) then (a * 2 ^ (- (la - lb)), b)
                     else (a, b * 2 ^ (- - (la - lb))))
                    = (a, b * 2 ^ (la - lb))).
  { destruct (Z.leb_spec 0 (- (la - lb))) as [H0|H0].
    - replace (la - lb) with 0 by lia. simpl. f_equal; lia.
    - rewrite Z.opp_involutive. reflexivity. }
  rewrite Hscaled.
  destruct (Z.leb_spec (b * 2 ^ (la - lb)) a) as [Hge|Hlt].
  - split; [lia|]. split; [lia|].
    replace (la - lb + 1) with (Z.succ (la - lb)) by lia.
    rewrite Z.pow_succ_r by lia. nia.
  - assert (Hpos : 0 < la - lb).
    { destruct (Z.eq_dec la lb) as [E|NE]; [|lia].
      exfalso. replace (la - lb) with 0 in Hlt by lia. simpl in Hlt. lia. }
    assert (Hpred : 2 ^ (la - lb) = 2 * 2 ^ (la - lb - 1)).
    { replace (la - lb) with (Z.succ (la - lb - 1)) at 1 by lia.
      apply Z.pow_succ_r. lia. }
    assert (0 < 2 ^ (la - lb - 1)) by (apply Z.pow_pos_nonneg; lia).
    split; [lia|]. replace (la - lb - 1 + 1) with (la - lb) by lia.
    split; [nia|lia].
Qed.

Lemma round53_mid (q : Q) :
  Z.pos (Qden q) <= Qnum q -> Qnum q < 2 ^ 53 * Z.pos (Qden q) ->
  exists t,
    0 <= t <= 52
    /\ 2 ^ 52 * Z.pos (Qden q) <= Qnum q * 2 ^ t
    /\ (Float.round53 q
        == Float.round_half_even (Qnum q * 2 ^ t) (Z.pos (Qden q)) # Z.to_pos (2 ^ t))%Q.
Proof.
  destruct q as [a b]. cbn [Qnum Qden]. intros Hlo Hhi.
  destruct (binade_bounds a (Z.pos b) ltac:(lia) Hlo) as (He0 & He1 & He2).
  set (e := Float.binade a (Z.pos b)) in *.
  assert (He52 : e <= 52).
  { destruct (Z.le_gt_cases e 52) as [H|H]; [exact H|]. exfalso.
    assert (2 ^ 53 <= 2 ^ e) by (apply Z.pow_le_mono_r; lia). nia. }
  exists (52 - e). split; [lia|]. split.
  - assert (Hsplit : 2 ^ 52 = 2 ^ e * 2 ^ (52 - e)).
    { rewrite <- Z.pow_add_r by lia. f_equal. lia. }
    assert (0 < 2 ^ (52 - e)) by (apply Z.pow_pos_nonneg; lia).
    rewrite Hsplit. nia.
  - unfold Float.round53. cbn [Qnum Qden]. destruct a as [|p|p]; try lia.
    unfold Float.round53_pos, Float.scale2. fold e.
    destruct (Z.leb_spec 0 (52 - e)) as [_|H]; [|lia].
    apply Qred_correct.
Qed.

(** An integer below 2^53 is a binary64 value: rounding leaves it. *)
Lemma round53_integer (q : Q) (z : Z) :
  0 < z < 2 ^ 53 -> Qnum q = z * Z.pos (Qden q) ->
  (Float.round53 q == inject_Z z)%Q.
Proof.
  intros Hz Hq.
  destruct (round53_mid q) as (t & Ht & _ & ->); [nia|nia|].
  rewrite Hq.
  replace (z * Z.pos (Qden q) * 2 ^ t) with (z * 2 ^ t * Z.pos (Qden q)) by lia.
  rewrite round_half_even_exact by lia.
  assert (0 < 2 ^ t) by (apply Z.pow_pos_nonneg; lia).
  unfold Qeq, inject_Z. cbn [Qnum Qden]. rewrite Z2Pos.id by lia. lia.
Qed.

(** Rounding moves a value of [[1, 2^53)] by at most half a unit in the
    last place, hence by at most the [2^53]-th part of it. *)
Lemma round53_error (q : Q) :
  (1 <= q)%Q -> (q < inject_Z (2 ^ 53))%Q ->
  (Qabs (Float.round53 q - q) * inject_Z (2 ^ 53) <= q)%Q.
Proof.
  intros Hlo Hhi.
  assert (Hlo' : Z.pos (Qden q) <= Qnum q).
  { unfold Qle in Hlo. cbn in Hlo. lia. }
  assert (Hhi' : Qnum q < 2 ^ 53 * Z.pos (Qden q)).
  { unfold Qlt, inject_Z in Hhi. cbn [Qnum Qden] in Hhi. lia. }
  destruct (round53_mid q Hlo' Hhi') as (t & Ht & Hscale & ->).
  pose proof (round_half_even_bound (Qnum q * 2 ^ t) (Z.pos (Qden q)) ltac:(lia))
    as Hb.
  set (m := Float.round_half_even (Qnum q * 2 ^ t) (Z.pos (Qden q))) in *.
  assert (Hp : 0 < 2 ^ t) by (apply Z.pow_pos_nonneg; lia).
  destruct q as [a b]. cbn [Qnum Qden] in *.
  unfold Qle, Qabs, Qminus, Qplus, Qopp, Qmult, inject_Z. cbn [Qnum Qden].
  rewrite !Pos2Z.inj_mul, Z2Pos.id by lia.
  rewrite Z.mul_1_r.
  replace (m * Z.pos b + - a * 2 ^ t) with (m * Z.pos b - a * 2 ^ t) by lia.
  set (d := Z.abs (m * Z.pos b - a * 2 ^ t)) in *.
  assert (Hd : 0 <= d) by (apply Z.abs_nonneg).
  change (2 ^ 53) with (2 * 2 ^ 52) in *.
  nia.
Qed.

(** The values of Python's own division at four quotients: [4/3] is
    [1.3333333333333333], [22/10] is [2.2], a tie goes to the even
    significand, and a power of two is kept. *)
Example round53_samples :
  Float.round53 (4 # 3) = (6004799503160661 # 4503599627370496)%Q
  /\ Float.round53 (22 # 10) = (2476979795053773 # 1125899906842624)%Q
  /\ Float.round53 (inject_Z (2 ^ 53 + 1)) = inject_Z (2 ^ 53)
  /\ Float.round53 (inject_Z (2 ^ 53 + 3)) = inject_Z (2 ^ 53 + 4)
  /\ Float.round53 (20 # 10) = 2%Q.
Proof. vm_compute. repeat split. Qed.

(** ** [MorrisCounter] *)

Section MorrisCounter.

Import Morris.

Context {Item : Type}.

(** One [add], unfolded: the exponent moves by [step_c] on the draw under
    the cursor and the cursor moves by one. *)
Lemma add_run (item : Item) (mc : MorrisCounter) (g : Rng) :
  add item (mc, g) = (tt, ({| c := step_c (c mc) (next_draw g) |}, advance 1 g)).
Proof. reflexivity. Qed.

(** [__len__], unfolded. *)
Lemma len_run (mc : MorrisCounter) (g : Rng) :
  __len__ (mc, g) = (2 ^ Z.of_N (c mc), (mc, g)).
Proof. reflexivity. Qed.

Lemma step_c_cases (e : N) (u : draw) :
  (Qltb (value u) (float_inv_pow2 e) = true /\ step_c e u = (e + 1)%N)
  \/ (Qltb (value u) (float_inv_pow2 e) = false /\ step_c e u = e).
Proof.
  unfold step_c. destruct (Qltb (value u) (float_inv_pow2 e)); simpl.
  - left. split; reflexivity.
  - right. split; [reflexivity|lia].
Qed.

Lemma step_c_ge (e : N) (u : draw) : (e <= step_c e u)%N.
Proof. destruct (step_c_cases e u) as [[_ ->]|[_ ->]]; lia. Qed.

(** Past the underflow the counter is stuck. *)
Lemma step_c_stuck (e : N) (u : draw) : (1074 < e)%N -> step_c e u = e.
Proof.
  intros He. destruct (step_c_cases e u) as [[Hlt _]|[_ ->]]; [|reflexivity].
  rewrite (float_inv_pow2_underflow e He) in Hlt.
  apply Qltb_lt in Hlt. destruct (value_range u) as [H0 _].
  exfalso. exact (Qlt_not_le _ _ Hlt H0).
Qed.

Lemma add_each_app (xs ys : list Item) (s : State) :
  add_each (xs ++ ys) s = add_each ys (snd (add_each xs s)).
Proof.
  revert s. induction xs as [|x xs IH]; intros s; simpl.
  - reflexivity.
  - unfold mbind, M_bind. destruct (add x s) as [[] s']. apply IH.
Qed.

Lemma add_each_c_ge (xs : list Item) (s : State) :
  (c (fst s) <= c (fst (snd (add_each xs s))))%N.
Proof.
  revert s. induction xs as [|x xs IH]; intros [mc g]; simpl.
  - lia.
  - unfold mbind, M_bind. rewrite add_run.
    etransitivity; [|apply IH]. simpl. apply step_c_ge.
Qed.

(** C2, as stated, fails once [1/(2**c)] underflows: at [c = 1075] with
    the draw [0.0] the claim's test [u < 1/2^c] holds, yet [add] leaves
    the exponent at 1075. *)
Lemma add_underflow_counterexample :
  ~ (forall (e : N) (g : Rng),
       (value (next_draw g) < 1 / inject_Z (2 ^ Z.of_N e))%Q ->
       c (fst (snd (add "word"%string ({| c := e |}, g)))) = (e + 1)%N)
  /\ (value (next_draw (const_rng zero_draw)) < 1 / inject_Z (2 ^ 1075))%Q
  /\ c (fst (snd (add "word"%string ({| c := 1075 |}, const_rng zero_draw))))
     = 1075%N.
Proof.
  assert (Hlt : (value (next_draw (const_rng zero_draw))
                 < 1 / inject_Z (2 ^ 1075))%Q) by (vm_compute; reflexivity).
  assert (Hc : c (fst (snd (add "word"%string
                 ({| c := 1075 |}, const_rng zero_draw)))) = 1075%N)
    by (vm_compute; reflexivity).
  split; [|split; assumption].
  intros H. specialize (H 1075%N (const_rng zero_draw) Hlt).
  rewrite Hc in H. discriminate H.
Qed.

(** C2 (amended): for every state whose exponent [e] is at most 1074, one
    [add] reads exactly one draw [u] of [[0, 1)] from the generator, makes
    the exponent [e + 1] if [u < 1/2^e] and leaves it at [e] otherwise;
    the exponent is the whole state of the counter, the generator only
    moves past that one draw, and [__len__], the only other method,
    changes nothing. *)
Theorem add_spec (item : Item) (e : N) (g : Rng) :
  (e <= 1074)%N ->
  let u := value (next_draw g) in
  ((0 <= u)%Q /\ (u < 1)%Q)
  /\ add item ({| c := e |}, g)
     = (tt, ({| c := if Qlt_le_dec u (1 / inject_Z (2 ^ Z.of_N e))
                     then (e + 1)%N else e |},
             advance 1 g))
  /\ (forall s : State, snd (__len__ s) = s).
Proof.
  intros He u. split; [apply value_range|]. split; [|reflexivity].
  rewrite add_run. simpl. do 3 f_equal.
  destruct (step_c_cases e (next_draw g)) as [[Hb ->]|[Hb ->]];
    rewrite (float_inv_pow2_exact e He) in Hb;
    destruct (Qlt_le_dec u (1 / inject_Z (2 ^ Z.of_N e))) as [Hlt|Hge];
    try reflexivity.
  - apply Qltb_lt in Hb. exfalso. exact (Qlt_not_le _ _ Hb Hge).
  - apply Qltb_ge in Hb. exfalso. exact (Qlt_not_le _ _ Hlt Hb).
Qed.

(** C3: in every state, reachable or not, [__len__] returns exactly [2^c]
    and leaves the counter and the generator as they were. *)
Theorem len_spec (s : State) :
  fst (__len__ s) = 2 ^ Z.of_N (c (fst s)) /\ snd (__len__ s) = s.
Proof. destruct s as [mc g]. rewrite len_run. split; reflexivity. Qed.

(** Through the builtin, [len(mc)] is that value as long as it fits an
    index, that is for [c < 63]. *)
Lemma builtin_len_spec (mc : MorrisCounter) (g : Rng) :
  (c mc < 63)%N -> len (mc, g) = (Ok (2 ^ Z.of_N (c mc)), (mc, g)).
Proof.
  intros Hc. unfold len. rewrite len_run.
  assert (H : 2 ^ Z.of_N (c mc) <= sys_maxsize).
  { unfold sys_maxsize.
    assert (2 ^ Z.of_N (c mc) <= 2 ^ 62) by (apply Z.pow_le_mono_r; lia).
    lia. }
  apply Z.leb_le in H. rewrite H. reflexivity.
Qed.

(** C4: the exponent never decreases. One [add] from any state, with any
    item and any draw, ends at an exponent at least as large; hence along
    any run of [add] calls the exponent after a prefix is at most the
    exponent after the whole run, and so is the value of [__len__]. *)
Theorem exponent_monotone (item : Item) (before rest : list Item) (s : State) :
  (c (fst s) <= c (fst (snd (add item s))))%N
  /\ (c (fst (snd (add_each before s)))
      <= c (fst (snd (add_each (before ++ rest) s))))%N
  /\ fst (__len__ (snd (add_each before s)))
     <= fst (__len__ (snd (add_each (before ++ rest) s))).
Proof.
  assert (H : (c (fst (snd (add_each before s)))
               <= c (fst (snd (add_each (before ++ rest) s))))%N).
  { rewrite add_each_app. apply add_each_c_ge. }
  split; [|split].
  - destruct s as [mc g]. rewrite add_run. simpl. apply step_c_ge.
  - exact H.
  - destruct (snd (add_each before s)) as [mc1 g1].
    destruct (snd (add_each (before ++ rest) s)) as [mc2 g2].
    rewrite !len_run. simpl in *. apply Z.pow_le_mono_r; lia.
Qed.

(** C9: on a fresh counter the first [add] makes the exponent 1 whatever
    the draw, so the estimate after one [add] is exactly 2. *)
Theorem first_add_deterministic (item : Item) (g : Rng) :
  let s := snd (add item (new, g)) in
  c (fst s) = 1%N /\ fst (__len__ s) = 2 /\ fst (len s) = Ok 2.
Proof.
  assert (H : step_c 0 (next_draw g) = 1%N).
  { destruct (step_c_cases 0 (next_draw g)) as [[_ ->]|[Hb _]]; [reflexivity|].
    apply Qltb_ge in Hb. destruct (value_range (next_draw g)) as [_ Hlt].
    exfalso. apply (Qlt_not_le _ _ Hlt). exact Hb. }
  rewrite add_run. simpl. rewrite H. repeat split.
Qed.

End MorrisCounter.

(** C8: the item handed to [add] plays no part: from the same counter
    state and the same generator, [add] with any two items (of any types)
    ends in the same state, in particular at the same exponent. *)
Theorem add_item_irrelevant {I1 I2 : Type} (x : I1) (y : I2) (s : Morris.State) :
  Morris.add x s = Morris.add y s
  /\ Morris.c (fst (snd (Morris.add x s))) = Morris.c (fst (snd (Morris.add y s))).
Proof. split; reflexivity. Qed.

Lemma add_spec_witness :
  let e := 3%N in
  let g := const_rng half_draw in
  let u := value (next_draw g) in
  (e <= 1074)%N
  /\ ((0 <= u)%Q /\ (u < 1)%Q)
  /\ Morris.add "word"%string ({| Morris.c := e |}, g)
     = (tt, ({| Morris.c := if Qlt_le_dec u (1 / inject_Z (2 ^ Z.of_N e))
                            then (e + 1)%N else e |},
             advance 1 g))
  /\ (forall s : Morris.State, snd (Morris.__len__ s) = s).
Proof.
  split; [vm_compute; discriminate|].
  apply (add_spec "word"%string 3%N (const_rng half_draw)).
  vm_compute; discriminate.
Defined.

(** ** The averaged ensemble *)

Section Ensemble.

Import Morris Ensemble.

Context {Item : Type}.

(** [mcs[j].add(word)] on a valid index: counter [j] makes its own [add]
    on the draw under the cursor. *)
Lemma at_index_add (word : Item) (j : nat) (mcs : list MorrisCounter)
    (mc : MorrisCounter) (g : Rng) :
  mcs !! j = Some mc ->
  at_index j (add word) (mcs, g)
  = Ok (tt, (<[j := fst (snd (add word (mc, g)))]> mcs, advance 1 g)).
Proof. intros H. unfold at_index. simpl. rewrite H. reflexivity. Qed.

Lemma advance_advance (n m : nat) (g : Rng) :
  advance m (advance n g) = advance (n + m) g.
Proof. unfold advance. simpl. f_equal. lia. Qed.

Lemma advance_0 (g : Rng) : advance 0 g = g.
Proof. destruct g as [t p]. unfold advance. simpl. f_equal. lia. Qed.

(** The inner loop over the indices [i, ..., i + n - 1]: every counter in
    that window makes one [add], the [m]-th of them on the [m]-th draw
    from the cursor, and the others are left alone. *)
Lemma for_add_window (word : Item) (n i : nat) (mcs : list MorrisCounter) (g : Rng) :
  (i + n <= length mcs)%nat ->
  exists mcs',
    for_ (seq i n) (fun j => at_index j (add word)) (mcs, g)
    = Ok (tt, (mcs', advance n g))
    /\ length mcs' = length mcs
    /\ (forall j, (j < i \/ i + n <= j)%nat -> mcs' !! j = mcs !! j)
    /\ (forall j mc, (i <= j < i + n)%nat -> mcs !! j = Some mc ->
          mcs' !! j = Some (fst (snd (add word (mc, advance (j - i) g))))).
Proof.
  revert i mcs g. induction n as [|n IH]; intros i mcs g Hlen.
  - exists mcs. rewrite advance_0. repeat split; try done.
    intros j mc Hj. lia.
  - destruct (lookup_lt_is_Some_2 mcs i) as [mci Hi]; [lia|].
    cbn [seq for_]. unfold mbind, EM_bind.
    rewrite (at_index_add word i mcs mci g Hi).
    set (mcs1 := <[i := fst (snd (add word (mci, g)))]> mcs).
    destruct (IH (S i) mcs1 (advance 1 g)) as (mcs' & Hrun & Hl & Hout & Hin).
    { unfold mcs1. rewrite length_insert. lia. }
    exists mcs'. rewrite Hrun, advance_advance.
    split; [reflexivity|]. split; [|split].
    + rewrite Hl. unfold mcs1. apply length_insert.
    + intros j Hj. rewrite Hout by lia. unfold mcs1.
      apply list_lookup_insert_ne. lia.
    + intros j mc Hj Hmc. destruct (decide (j = i)) as [->|Hne].
      * rewrite Hout by lia. unfold mcs1.
        rewrite list_lookup_insert_eq by lia.
        assert (mc = mci) as -> by congruence.
        rewrite Nat.sub_diag, advance_0. reflexivity.
      * rewrite (Hin j mc) by
          (try lia; unfold mcs1; rewrite list_lookup_insert_ne by lia; exact Hmc).
        rewrite advance_advance.
        replace (1 + (j - S i))%nat with (j - i)%nat by lia. reflexivity.
Qed.

(** [len(mcs[j])] on a valid index whose counter is below [2^63]. *)
Lemma len_at_small (j : nat) (mcs : list MorrisCounter) (mc : MorrisCounter) (g : Rng) :
  mcs !! j = Some mc -> (c mc < 63)%N ->
  len_at j (mcs, g) = Ok (2 ^ Z.of_N (c mc), (mcs, g)).
Proof.
  intros Hj Hc. unfold len_at, mbind, EM_bind, at_index. simpl. rewrite Hj.
  rewrite list_insert_id by exact Hj.
  assert (H : 2 ^ Z.of_N (c mc) <= sys_maxsize).
  { unfold sys_maxsize.
    assert (2 ^ Z.of_N (c mc) <= 2 ^ 62) by (apply Z.pow_le_mono_r; lia).
    lia. }
  apply Z.leb_le in H. rewrite H. reflexivity.
Qed.

Lemma lens_small (n i : nat) (mcs : list MorrisCounter) (g : Rng) :
  (i + n <= length mcs)%nat ->
  Forall (fun mc => (c mc < 63)%N) mcs ->
  lens (seq i n) (mcs, g)
  = Ok (map (fun mc => 2 ^ Z.of_N (c mc)) (take n (drop i mcs)), (mcs, g)).
Proof.
  revert i. induction n as [|n IH]; intros i Hlen Hall.
  - reflexivity.
  - destruct (lookup_lt_is_Some_2 mcs i) as [mci Hi]; [lia|].
    simpl. unfold mbind, EM_bind.
    rewrite (len_at_small i mcs mci g Hi)
      by (rewrite Forall_lookup in Hall; exact (Hall i mci Hi)).
    fold (@mbind EM _). unfold mbind, EM_bind.
    rewrite (IH (S i)) by (try lia; exact Hall).
    unfold mret, EM_ret.
    rewrite (drop_S mcs mci i Hi). reflexivity.
Qed.

Lemma mcs_init_spec (k : nat) :
  length (mcs_init k) = k /\ Forall (fun mc => c mc = 0%N) (mcs_init k).
Proof.
  unfold mcs_init. split; [apply length_replicate|].
  apply Forall_replicate. reflexivity.
Qed.

(** C7, as stated, fails on the estimate: it is read through the builtin
    [len], so with a counter at exponent 63 the comprehension raises
    [OverflowError] and no mean is returned. *)
Lemma ensemble_estimate_overflow_counterexample :
  ~ (forall s : Ensemble.State, exists q, estimate s = Ok (q, s))
  /\ estimate (replicate 10 (__init__ 63), const_rng zero_draw)
     = Raise OverflowError.
Proof.
  assert (H : estimate (replicate 10 (__init__ 63), const_rng zero_draw)
              = Raise OverflowError) by (vm_compute; reflexivity).
  split; [|exact H].
  intros Hall.
  destruct (Hall (replicate 10 (__init__ 63), const_rng zero_draw)) as [q Hq].
  rewrite H in Hq. discriminate Hq.
Qed.

Lemma total_ge_length (mcs : list MorrisCounter) :
  Z.of_nat (length mcs) <= total mcs.
Proof.
  unfold total. induction mcs as [|mc mcs IH]; [reflexivity|].
  cbn [map length]. rewrite sum_cons.
  assert (0 < 2 ^ Z.of_N (c mc)) by (apply Z.pow_pos_nonneg; lia). lia.
Qed.

(** The exact mean of a non-empty list, as a fraction. *)
Lemma exact_mean_fraction (mcs : list MorrisCounter) :
  mcs <> [] ->
  Qnum (exact_mean mcs) = total mcs
  /\ Z.pos (Qden (exact_mean mcs)) = Z.of_nat (length mcs).
Proof.
  intros Hne. unfold exact_mean.
  destruct (Z.of_nat (length mcs)) as [|p|p] eqn:E.
  - destruct mcs; [contradiction|discriminate E].
  - unfold Qdiv, Qmult, Qinv, inject_Z. cbn. split; [lia|reflexivity].
  - lia.
Qed.

(** With every exponent below 63 the comprehension and [np.mean] run
    through and leave the state alone. *)
Lemma estimate_value (mcs : list MorrisCounter) (g : Rng) :
  Forall (fun mc => (c mc < 63)%N) mcs ->
  estimate (mcs, g) = Ok (Float.round53 (exact_mean mcs), (mcs, g)).
Proof.
  intros Hsmall. unfold estimate, mbind, EM_bind. cbn [fst].
  rewrite (lens_small (length mcs) 0 mcs g) by (try lia; exact Hsmall).
  rewrite drop_0, firstn_all. unfold mret, EM_ret, np_mean, exact_mean, total.
  rewrite length_map. reflexivity.
Qed.

(** The rounded mean of a non-empty list whose sum is below [2^53]: it is
    within the [2^53]-th part of the exact mean, and it is the exact mean
    when that is an integer. *)
Lemma rounded_mean_close (mcs : list MorrisCounter) :
  mcs <> [] -> total mcs < 2 ^ 53 ->
  (Qabs (Float.round53 (exact_mean mcs) - exact_mean mcs) * inject_Z (2 ^ 53)
   <= exact_mean mcs)%Q
  /\ (forall z, (exact_mean mcs == inject_Z z)%Q ->
        (Float.round53 (exact_mean mcs) == inject_Z z)%Q).
Proof.
  intros Hne Htot.
  destruct (exact_mean_fraction mcs Hne) as [Hn Hd].
  pose proof (total_ge_length mcs) as Hge.
  assert (Hk : 0 < Z.of_nat (length mcs)) by (destruct mcs; [contradiction|simpl; lia]).
  split.
  - apply round53_error.
    + unfold Qle. cbn [Qnum Qden]. rewrite Hn, Hd. lia.
    + unfold Qlt, inject_Z. cbn [Qnum Qden]. rewrite Hn, Hd. nia.
  - intros z Hz. apply round53_integer.
    + unfold Qeq, inject_Z in Hz. cbn [Qnum Qden] in Hz.
      rewrite Hn, Hd in Hz. nia.
    + unfold Qeq, inject_Z in Hz. cbn [Qnum Qden] in Hz. lia.
Qed.

(** C7 (amended): an ensemble is a list of [k] counters, each with an
    exponent of its own. One round of the inner loop never raises, makes
    every counter perform one [add], counter [j] on the [j]-th draw from
    the cursor (so no two counters share a draw), and moves the generator
    by [k] draws. For [k >= 1] and while every exponent is below 63 the
    estimate returns a value and changes nothing; while the sum of the
    [2^c_j] is below [2^53] that value is their arithmetic mean rounded
    to binary64: within the [2^53]-th part of the mean, and the mean
    itself when the mean is an integer. *)
Theorem ensemble_spec (k : nat) (word : Item) (mcs : list MorrisCounter) (g : Rng) :
  length mcs = k ->
  (exists mcs',
     add_all k word (mcs, g) = Ok (tt, (mcs', advance k g))
     /\ length mcs' = k
     /\ (forall j mc, mcs !! j = Some mc ->
           mcs' !! j = Some (fst (snd (add word (mc, advance j g))))))
  /\ ((0 < k)%nat -> Forall (fun mc => (c mc < 63)%N) mcs ->
      exists q,
        estimate (mcs, g) = Ok (q, (mcs, g))
        /\ (total mcs < 2 ^ 53 ->
            q = Float.round53 (exact_mean mcs)
            /\ (Qabs (q - exact_mean mcs) * inject_Z (2 ^ 53) <= exact_mean mcs)%Q
            /\ (forall z, (exact_mean mcs == inject_Z z)%Q -> (q == inject_Z z)%Q))).
Proof.
  intros Hk. split.
  - destruct (for_add_window word k 0 mcs g) as (mcs' & Hrun & Hl & _ & Hin);
      [lia|].
    exists mcs'. split; [exact Hrun|]. split; [lia|].
    intros j mc Hj. rewrite (Hin j mc); [|split; [lia|]|exact Hj].
    + rewrite Nat.sub_0_r. reflexivity.
    + apply lookup_lt_Some in Hj. lia.
  - intros Hpos Hsmall. eexists. split; [apply estimate_value, Hsmall|].
    intros Htot. split; [reflexivity|].
    apply rounded_mean_close; [|exact Htot].
    intros ->. simpl in Hk. lia.
Qed.

(** The mean is rounded: counters at exponents 1, 0, 0 have the mean
    [4/3] and the estimate [1.3333333333333333]. *)
Example ensemble_estimate_rounds :
  estimate ([__init__ 1; __init__ 0; __init__ 0], const_rng zero_draw)
  = Ok ((6004799503160661 # 4503599627370496)%Q,
        ([__init__ 1; __init__ 0; __init__ 0], const_rng zero_draw)).
Proof. vm_compute. reflexivity. Qed.

End Ensemble.

Lemma ensemble_spec_witness :
  let mcs := Ensemble.mcs_init 10 in
  let g := const_rng half_draw in
  length mcs = 10%nat
  /\ (exists mcs',
        Ensemble.add_all 10 "word"%string (mcs, g) = Ok (tt, (mcs', advance 10 g))
        /\ length mcs' = 10%nat
        /\ (forall j mc, mcs !! j = Some mc ->
              mcs' !! j
              = Some (fst (snd (Morris.add "word"%string (mc, advance j g))))))
  /\ ((0 < 10)%nat -> Forall (fun mc => (Morris.c mc < 63)%N) mcs ->
      exists q,
        Ensemble.estimate (mcs, g) = Ok (q, (mcs, g))
        /\ (Ensemble.total mcs < 2 ^ 53 ->
            q = Float.round53 (Ensemble.exact_mean mcs)
            /\ (Qabs (q - Ensemble.exact_mean mcs) * inject_Z (2 ^ 53)
                <= Ensemble.exact_mean mcs)%Q
            /\ (forall z, (Ensemble.exact_mean mcs == inject_Z z)%Q ->
                  (q == inject_Z z)%Q))).
Proof.
  split; [reflexivity|].
  apply (ensemble_spec 10 "word"%string (Ensemble.mcs_init 10) (const_rng half_draw)).
  reflexivity.
Defined.

(** The first row of the notebook's table: after the first word every one
    of the ten counters stands at exponent 1 and the estimate is 2. *)
Example ensemble_first_round :
  bind (Ensemble.add_all 10 "word"%string (Ensemble.mcs_init 10, const_rng half_draw))
       (fun r => Ensemble.estimate (snd r))
  = Ok (2%Q, (replicate 10 (Morris.__init__ 1), advance 10 (const_rng half_draw))).
Proof. vm_compute. reflexivity. Qed.

(** ** [CardinalityEstimator.merge] *)

Section Merge.

Import CardinalityEstimator.

Lemma zip_max_idemp (xs : list N) : zip_with N.max xs xs = xs.
Proof.
  induction xs as [|x xs IH]; simpl; [reflexivity|].
  rewrite IH, N.max_id. reflexivity.
Qed.

Lemma zip_max_comm (xs ys : list N) :
  zip_with N.max xs ys = zip_with N.max ys xs.
Proof.
  revert ys. induction xs as [|x xs IH]; intros [|y ys]; simpl; try reflexivity.
  rewrite IH, N.max_comm. reflexivity.
Qed.

Lemma zip_max_assoc (xs ys zs : list N) :
  zip_with N.max (zip_with N.max xs ys) zs
  = zip_with N.max xs (zip_with N.max ys zs).
Proof.
  revert ys zs.
  induction xs as [|x xs IH]; intros [|y ys] [|z zs]; simpl; try reflexivity.
  rewrite IH, N.max_assoc. reflexivity.
Qed.

Lemma zip_max_length (xs ys : list N) :
  length xs = length ys -> length (zip_with N.max xs ys) = length xs.
Proof. intros H. rewrite length_zip_with. lia. Qed.

(** With equal register counts [merge] succeeds, with the element-wise
    maximum, and the count is kept. *)
Lemma merge_ok (A B : CardinalityEstimator) :
  m A = m B ->
  merge A B = Ok {| register := zip_with N.max (register A) (register B) |}
  /\ m {| register := zip_with N.max (register A) (register B) |} = m A.
Proof.
  intros H. unfold merge. destruct (decide (m A = m B)) as [_|Hne]; [|done].
  split; [reflexivity|]. unfold m in *. simpl. apply zip_max_length, H.
Qed.

(** With different register counts it raises and returns nothing. *)
Lemma merge_mismatch (A B : CardinalityEstimator) :
  m A <> m B -> merge A B = Raise ConfigurationMismatch.
Proof.
  intros H. unfold merge. destruct (decide (m A = m B)); done.
Qed.

(** C5: for estimators [A], [B], [C] with the same register count,
    [merge] is idempotent ([merge(A, A)] is [A], hence has the estimate of
    [A], whatever function of the registers the estimate is), commutative
    and associative, register by register. *)
Theorem merge_idempotent_commutative_associative
    (estimate : CardinalityEstimator -> Q) (A B C : CardinalityEstimator) :
  m A = m B -> m B = m C ->
  merge A A = Ok A
  /\ estimate_of estimate (merge A A) = Ok (estimate A)
  /\ merge A B = merge B A
  /\ bind (merge A B) (fun AB => merge AB C)
     = bind (merge B C) (fun BC => merge A BC)
  /\ is_ok (bind (merge A B) (fun AB => merge AB C)) = true.
Proof.
  intros HAB HBC.
  assert (Hidem : merge A A = Ok A).
  { destruct (merge_ok A A eq_refl) as [-> _].
    rewrite zip_max_idemp. destruct A. reflexivity. }
  destruct (merge_ok A B HAB) as [EAB LAB].
  destruct (merge_ok B C HBC) as [EBC LBC].
  destruct (merge_ok B A (eq_sym HAB)) as [EBA _].
  split; [exact Hidem|]. split; [rewrite Hidem; reflexivity|].
  split; [rewrite EAB, EBA, zip_max_comm; reflexivity|].
  rewrite EAB, EBC. cbn [bind].
  match goal with |- merge ?X C = merge A ?Y /\ _ =>
    destruct (merge_ok X C) as [-> _]; [congruence|];
    destruct (merge_ok A Y) as [-> _]; [congruence|]
  end.
  cbn [register]. rewrite zip_max_assoc. split; reflexivity.
Qed.

End Merge.

Lemma merge_idempotent_commutative_associative_witness :
  let A := CardinalityEstimator.mkEstimator [1; 2; 0; 7]%N in
  let B := CardinalityEstimator.mkEstimator [3; 0; 0; 5]%N in
  let C := CardinalityEstimator.mkEstimator [0; 5; 1; 6]%N in
  let estimate := fun X => inject_Z (Z.of_N (foldr N.add 0%N (CardinalityEstimator.register X))) in
  CardinalityEstimator.merge A A = Ok A
  /\ CardinalityEstimator.estimate_of estimate (CardinalityEstimator.merge A A)
     = Ok (estimate A)
  /\ CardinalityEstimator.merge A B = CardinalityEstimator.merge B A
  /\ bind (CardinalityEstimator.merge A B) (fun AB => CardinalityEstimator.merge AB C)
     = bind (CardinalityEstimator.merge B C) (fun BC => CardinalityEstimator.merge A BC)
  /\ is_ok (bind (CardinalityEstimator.merge A B)
                 (fun AB => CardinalityEstimator.merge AB C)) = true.
Proof.
  apply (merge_idempotent_commutative_associative
           (fun X => inject_Z (Z.of_N (foldr N.add 0%N (CardinalityEstimator.register X))))
           (CardinalityEstimator.mkEstimator [1; 2; 0; 7]%N)
           (CardinalityEstimator.mkEstimator [3; 0; 0; 5]%N)
           (CardinalityEstimator.mkEstimator [0; 5; 1; 6]%N));
    reflexivity.
Defined.

(** ** [MembershipFilter] *)

Section MembershipFilter.

Import MembershipFilter.

Context {Item : Type}.
Variable hash : N -> Item -> N.
Variable full : BloomFilter -> bool.
Variable adjust : BloomFilter -> nat * list N.

(** The growth policy never asks for an empty bit vector, so that no
    [add] fails on construction. *)
Hypothesis adjust_positive : forall f, wf f -> (0 < fst (adjust f))%nat.

Lemma set_bits_length (ps : list nat) (b : list bool) :
  length (set_bits ps b) = length b.
Proof.
  revert b. induction ps as [|p ps IH]; intros b; simpl; [reflexivity|].
  unfold set_bits in *. simpl. rewrite IH. apply length_insert.
Qed.

(** A bit once set stays set. *)
Lemma set_bits_keeps (ps : list nat) (b : list bool) (i : nat) :
  b !! i = Some true -> set_bits ps b !! i = Some true.
Proof.
  revert b. induction ps as [|p ps IH]; intros b Hi; [exact Hi|].
  unfold set_bits in *. simpl. apply IH.
  destruct (decide (p = i)) as [->|Hne].
  - apply list_lookup_insert_eq. apply lookup_lt_Some in Hi. exact Hi.
  - rewrite list_lookup_insert_ne by exact Hne. exact Hi.
Qed.

(** Every listed position inside the vector is set afterwards. *)
Lemma set_bits_sets (ps : list nat) (b : list bool) (p : nat) :
  In p ps -> (p < length b)%nat -> set_bits ps b !! p = Some true.
Proof.
  revert b. induction ps as [|q ps IH]; intros b Hin Hp; [destruct Hin|].
  unfold set_bits in *. simpl. destruct Hin as [->|Hin].
  - apply (set_bits_keeps ps). apply list_lookup_insert_eq. exact Hp.
  - apply IH; [exact Hin|]. rewrite length_insert. exact Hp.
Qed.

Lemma add_length (y : Item) (f : BloomFilter) :
  length (bits (add hash y f)) = length (bits f).
Proof. unfold add. simpl. apply set_bits_length. Qed.

Lemma add_wf (y : Item) (f : BloomFilter) : wf f -> wf (add hash y f).
Proof. unfold wf. rewrite add_length. trivial. Qed.

Lemma position_add (y x : Item) (sd : N) (f : BloomFilter) :
  position hash (add hash y f) sd x = position hash f sd x.
Proof. unfold position. rewrite add_length. reflexivity. Qed.

Lemma position_lt (x : Item) (sd : N) (f : BloomFilter) :
  wf f -> (position hash f sd x < length (bits f))%nat.
Proof.
  unfold wf, position. intros Hk.
  assert (H : (hash sd x mod N.of_nat (length (bits f))
               < N.of_nat (length (bits f)))%N)
    by (apply N.mod_lt; lia).
  lia.
Qed.

(** The basic filter has no false negative right after the insertion. *)
Lemma contains_add (x : Item) (f : BloomFilter) :
  wf f -> contains hash x (add hash x f) = true.
Proof.
  intros Hwf. unfold contains. apply forallb_forall. intros sd Hsd.
  rewrite position_add. unfold bit_set, add. cbn [bits seeds] in *.
  rewrite set_bits_sets; [reflexivity| |apply position_lt, Hwf].
  apply in_map_iff. exists sd. split; [reflexivity|exact Hsd].
Qed.

(** Nor after a later insertion of anything else. *)
Lemma contains_add_other (x y : Item) (f : BloomFilter) :
  contains hash x f = true -> contains hash x (add hash y f) = true.
Proof.
  unfold contains. rewrite !forallb_forall. intros H sd Hsd.
  rewrite position_add. specialize (H sd Hsd).
  unfold bit_set in *. unfold add. cbn [bits seeds] in *.
  destruct (bits f !! position hash f sd x) as [[|]|] eqn:E; try discriminate.
  rewrite (set_bits_keeps _ _ _ E). reflexivity.
Qed.

Lemma new_filter_ok (k : nat) (sds : list N) :
  (0 < k)%nat ->
  exists f, new_filter k sds = Ok f /\ wf f.
Proof.
  intros Hk. unfold new_filter.
  destruct (Nat.eqb_spec k 0) as [->|_]; [lia|].
  eexists. split; [reflexivity|]. unfold wf. simpl.
  rewrite length_replicate. exact Hk.
Qed.

Lemma sbf_new_ok (k : nat) (sds : list N) :
  (0 < k)%nat ->
  exists s, sbf_new k sds = Ok s /\ sbf_wf s.
Proof.
  intros Hk. unfold sbf_new.
  destruct (new_filter_ok k sds Hk) as (f & -> & Hf).
  eexists. split; [reflexivity|]. split; [exact Hf|constructor].
Qed.

(** On a well-formed chain [add] never fails, keeps the chain well-formed,
    and the item is found afterwards. *)
Lemma sbf_add_ok (x : Item) (s : ScalableBloomFilter) :
  sbf_wf s ->
  exists s', sbf_add hash full adjust x s = Ok s'
             /\ sbf_wf s' /\ sbf_contains hash x s' = true.
Proof.
  intros [Hcur Hold]. unfold sbf_add. destruct (full (current s)).
  - destruct (new_filter_ok (fst (adjust (current s))) (snd (adjust (current s))))
      as (f & -> & Hf); [apply adjust_positive, Hcur|].
    eexists. split; [reflexivity|]. split.
    + split; cbn [current older]; [apply add_wf, Hf|].
      constructor; assumption.
    + unfold sbf_contains. cbn [current older].
      rewrite (contains_add x f Hf). reflexivity.
  - eexists. split; [reflexivity|]. split.
    + split; cbn [current older]; [apply add_wf, Hcur|exact Hold].
    + unfold sbf_contains. cbn [current older].
      rewrite (contains_add x _ Hcur). reflexivity.
Qed.

(** An item found in the chain is still found after any [add]. *)
Lemma sbf_add_keeps (x y : Item) (s s' : ScalableBloomFilter) :
  sbf_add hash full adjust y s = Ok s' ->
  sbf_contains hash x s = true -> sbf_contains hash x s' = true.
Proof.
  unfold sbf_add, sbf_contains. intros Hadd Hx.
  destruct (full (current s)).
  - destruct (new_filter _ _) as [f|e]; [|discriminate].
    injection Hadd as <-. cbn [current older existsb].
    rewrite Hx. apply orb_true_r.
  - injection Hadd as <-. cbn [current older].
    apply orb_true_iff in Hx as [Hx|Hx].
    + rewrite (contains_add_other x y _ Hx). reflexivity.
    + rewrite Hx. apply orb_true_r.
Qed.

Lemma sbf_add_each_keeps (x : Item) (ys : list Item) (s : ScalableBloomFilter) :
  sbf_wf s -> sbf_contains hash x s = true ->
  exists s', sbf_add_each hash full adjust ys s = Ok s'
             /\ sbf_wf s' /\ sbf_contains hash x s' = true.
Proof.
  revert s. induction ys as [|y ys IH]; intros s Hwf Hx.
  - exists s. repeat split; assumption || apply Hwf.
  - destruct (sbf_add_ok y s Hwf) as (s1 & Hadd & Hwf1 & _).
    cbn [sbf_add_each]. rewrite Hadd. cbn [bind].
    apply IH; [exact Hwf1|]. exact (sbf_add_keeps x y s s1 Hadd Hx).
Qed.

(** C1: the filter never gives a false negative. From every well-formed
    state, [add(x)] succeeds and [contains(x)] is true right after it;
    any further run of [add] calls with any items succeeds as well and
    [contains(x)] is still true at its end. *)
Theorem no_false_negative (x : Item) (ys : list Item) (s : ScalableBloomFilter) :
  sbf_wf s ->
  exists s1 s2,
    sbf_add hash full adjust x s = Ok s1
    /\ sbf_contains hash x s1 = true
    /\ sbf_add_each hash full adjust ys s1 = Ok s2
    /\ sbf_contains hash x s2 = true.
Proof.
  intros Hwf.
  destruct (sbf_add_ok x s Hwf) as (s1 & Hadd & Hwf1 & Hx1).
  destruct (sbf_add_each_keeps x ys s1 Hwf1 Hx1) as (s2 & Hrun & _ & Hx2).
  exists s1, s2. repeat split; assumption.
Qed.

End MembershipFilter.

Lemma no_false_negative_witness :
  let s := MembershipFilter.mkScalable
             (MembershipFilter.mkFilter (replicate 100 false) [1; 2; 3]%N) [] in
  MembershipFilter.sbf_wf s
  /\ exists s1 s2,
       MembershipFilter.sbf_add MembershipFilter.sample_hash
         MembershipFilter.sample_full MembershipFilter.sample_adjust
         (str "banana") s = Ok s1
       /\ MembershipFilter.sbf_contains MembershipFilter.sample_hash (str "banana") s1 = true
       /\ MembershipFilter.sbf_add_each MembershipFilter.sample_hash
            MembershipFilter.sample_full MembershipFilter.sample_adjust
            [str "artist"; str "Dublin"] s1 = Ok s2
       /\ MembershipFilter.sbf_contains MembershipFilter.sample_hash (str "banana") s2 = true.
Proof.
  assert (Hwf : MembershipFilter.sbf_wf
                  (MembershipFilter.mkScalable
                     (MembershipFilter.mkFilter (replicate 100 false) [1; 2; 3]%N) [])).
  { split; [unfold MembershipFilter.wf; simpl; lia|constructor]. }
  split; [exact Hwf|].
  apply (no_false_negative MembershipFilter.sample_hash
           MembershipFilter.sample_full MembershipFilter.sample_adjust).
  - intros f Hf. unfold MembershipFilter.wf in Hf.
    unfold MembershipFilter.sample_adjust. simpl. lia.
  - exact Hwf.
Defined.

(** The scenario of the specification: a filter of 100 bits and 3 seeds
    holding "banana", "artist" and "Dublin" answers yes for "banana" and,
    under the sample hash, no for "masochist". *)
Example filter_scenario :
  let f := fold_right (MembershipFilter.add MembershipFilter.sample_hash)
             (MembershipFilter.mkFilter (replicate 100 false) [1; 2; 3]%N)
             [str "Dublin"; str "artist"; str "banana"] in
  MembershipFilter.contains MembershipFilter.sample_hash (str "banana") f = true
  /\ MembershipFilter.contains MembershipFilter.sample_hash (str "masochist") f = false.
Proof. vm_compute. split; reflexivity. Qed.

(** A run that grows the chain: with 4 bits the second insertion finds
    the filter half full and opens a filter of 8 bits; the first word is
    still found, in the older filter. *)
Example filter_growth :
  let s := MembershipFilter.mkScalable
             (MembershipFilter.mkFilter (replicate 4 false) [1; 2]%N) [] in
  bind (MembershipFilter.sbf_add_each MembershipFilter.sample_hash
          MembershipFilter.sample_full MembershipFilter.sample_adjust
          [str "banana"; str "artist"] s)
       (fun s' => Ok (length (MembershipFilter.older s'),
                      length (MembershipFilter.bits (MembershipFilter.current s')),
                      MembershipFilter.sbf_contains MembershipFilter.sample_hash (str "banana") s'))
  = Ok (1%nat, 8%nat, true).
Proof. vm_compute. reflexivity. Qed.

(** * Further properties of the code *)

(** ** [string_hash], continued *)

Lemma sum_app (xs ys : list Z) : sum (xs ++ ys) = sum xs + sum ys.
Proof.
  induction xs as [|x xs IH]; simpl.
  - reflexivity.
  - rewrite !sum_cons, IH. lia.
Qed.

(** The hash of a concatenation is the sum of the hashes of the parts,
    reduced again; with a zero modulus all three calls raise. *)
Theorem string_hash_concat (w1 w2 : list char) (n : Z) :
  string_hash (w1 ++ w2) n
  = bind (string_hash w1 n) (fun r1 =>
      bind (string_hash w2 n) (fun r2 => mod_ (r1 + r2) n)).
Proof.
  unfold string_hash, mod_. rewrite map_app, sum_app.
  destruct (Z.eqb_spec n 0) as [->|Hn]; [reflexivity|].
  cbn [bind]. destruct (Z.eqb_spec n 0) as [E|_]; [contradiction|].
  f_equal. apply Z.add_mod. exact Hn.
Qed.

(** Two words collide under a non-zero modulus [n] exactly when [n]
    divides the difference of the sums of their code points. *)
Theorem string_hash_collision (w w' : list char) (n : Z) :
  n <> 0 ->
  (string_hash w n = string_hash w' n
   <-> (n | sum (map ord w) - sum (map ord w'))).
Proof.
  intros Hn. unfold string_hash, mod_.
  destruct (Z.eqb_spec n 0) as [E|_]; [contradiction|].
  split.
  - intros H. injection H as H.
    apply Z.mod_divide; [exact Hn|].
    rewrite Zminus_mod, H, Z.sub_diag. apply Z.mod_0_l. exact Hn.
  - intros [q Hq]. f_equal.
    replace (sum (map ord w)) with (sum (map ord w') + q * n) by lia.
    apply Z.mod_add. exact Hn.
Qed.

Lemma string_hash_collision_witness :
  string_hash (str "ad") 10 = string_hash (str "bc") 10
  <-> (10 | sum (map ord (str "ad")) - sum (map ord (str "bc"))).
Proof. apply (string_hash_collision (str "ad") (str "bc") 10). lia. Defined.

(** ** [flatten] and [word_list] *)

Lemma flatten_cons {A : Type} (xs : list A) (rest : list (list A)) :
  flatten (xs :: rest) = xs ++ flatten rest.
Proof.
  cbn [flatten]. induction xs as [|x xs IH]; simpl; [reflexivity|].
  rewrite IH. reflexivity.
Qed.

Lemma flatten_app {A : Type} (xss yss : list (list A)) :
  flatten (xss ++ yss) = flatten xss ++ flatten yss.
Proof.
  induction xss as [|xs xss IH]; [reflexivity|].
  rewrite <- app_comm_cons, !flatten_cons, IH, app_assoc. reflexivity.
Qed.

(** Reading a file in two parts and joining the word lists gives the
    word list of the whole file: the words keep the order of the lines. *)
Theorem word_list_app {Line Word : Type} (split : Line -> list Word)
    (f1 f2 : list Line) :
  word_list split (f1 ++ f2) = word_list split f1 ++ word_list split f2.
Proof. unfold word_list. rewrite map_app. apply flatten_app. Qed.

(** No word is lost or invented: the word list has as many words as the
    lines have together, a line without words adds nothing, and a word is
    in the list exactly when some line of the file splits to it. *)
Theorem word_list_members {Line Word : Type} (split : Line -> list Word)
    (f : list Line) :
  length (word_list split f) = sum_list (map (fun line => length (split line)) f)
  /\ (forall w, w ∈ word_list split f <-> exists line, line ∈ f /\ w ∈ split line).
Proof.
  unfold word_list. induction f as [|line f [IHl IHm]].
  - split; [reflexivity|]. intros w. split.
    + intros H. inversion H.
    + intros (line & H & _). inversion H.
  - cbn [map]. rewrite flatten_cons. split.
    + rewrite length_app, IHl. reflexivity.
    + intros w. rewrite elem_of_app, IHm. split.
      * intros [H|(l & Hl & Hw)].
        -- exists line. split; [left|exact H].
        -- exists l. split; [right; exact Hl|exact Hw].
      * intros (l & Hl & Hw). apply elem_of_cons in Hl as [->|Hl].
        -- left. exact Hw.
        -- right. exists l. split; assumption.
Qed.

(** ** [MorrisCounter], continued *)

Lemma Qlt_inv_pos (x : Q) (z : Z) :
  0 < z -> (x < 1 / inject_Z z)%Q <-> Qnum x * z < Z.pos (Qden x).
Proof.
  intros Hz. destruct z as [|p|p]; try lia.
  destruct x as [a d]. unfold Qlt, Qdiv, Qinv, Qmult, inject_Z. simpl.
  reflexivity.
Qed.

(** While the quotient is exact, the comparison of [add] is a comparison
    of integers: the draw [k / 2^53] is below [1/2^e] when
    [k * 2^e < 2^53]. *)
Lemma increment_test (e : N) (u : draw) :
  (e <= 1074)%N ->
  Qltb (value u) (float_inv_pow2 e) = true <-> (bits53 u * 2 ^ e < 2 ^ 53)%N.
Proof.
  intros He. rewrite Qltb_lt, (float_inv_pow2_exact e He).
  rewrite Qlt_inv_pos by (apply Z.pow_pos_nonneg; lia).
  unfold value. cbn [Qnum Qden].
  change (Z.pos (2 ^ 53)) with (Z.of_N (2 ^ 53)).
  change 2 with (Z.of_N 2) at 1. rewrite <- N2Z.inj_pow, <- N2Z.inj_mul.
  split; intros H; [apply N2Z.inj_lt|apply N2Z.inj_lt in H]; exact H.
Qed.

Section MorrisCounterRuns.

Import Morris.

Context {Item : Type}.

(** Up to exponent 53 the increment has exactly the intended rate: of the
    [2^53] equally likely draws, the [2^(53-e)] smallest ones increment
    the exponent and no other does. *)
Theorem add_exact_rate (item : Item) (e : N) (g : Rng) :
  (e <= 53)%N ->
  c (fst (snd (add item ({| c := e |}, g))))
  = if (bits53 (next_draw g) <? 2 ^ (53 - e))%N then (e + 1)%N else e.
Proof.
  intros He. rewrite add_run. cbn [fst snd c].
  assert (Hpow : (2 ^ 53 = 2 ^ (53 - e) * 2 ^ e)%N).
  { rewrite <- N.pow_add_r. f_equal. lia. }
  assert (Hpos : (0 < 2 ^ e)%N) by (apply N.neq_0_lt_0, N.pow_nonzero; lia).
  destruct (step_c_cases e (next_draw g)) as [[Hb ->]|[Hb ->]].
  - apply increment_test in Hb; [|lia]. rewrite Hpow in Hb.
    apply N.mul_lt_mono_pos_r in Hb; [|exact Hpos].
    apply N.ltb_lt in Hb. rewrite Hb. reflexivity.
  - destruct (N.ltb_spec (bits53 (next_draw g)) (2 ^ (53 - e))) as [Hlt|_];
      [|reflexivity].
    exfalso. apply (N.mul_lt_mono_pos_r (2 ^ e)) in Hlt; [|exact Hpos].
    rewrite <- Hpow in Hlt. apply increment_test in Hlt; [|lia]. congruence.
Qed.

(** From exponent 53 to 1074 the draws are too coarse for the threshold:
    the exponent moves only on the single draw [0.0]. *)
Theorem add_resolution_floor (item : Item) (e : N) (g : Rng) :
  (53 <= e)%N -> (e <= 1074)%N ->
  c (fst (snd (add item ({| c := e |}, g))))
  = if (bits53 (next_draw g) =? 0)%N then (e + 1)%N else e.
Proof.
  intros Hlo Hhi. rewrite add_run. cbn [fst snd c].
  assert (Hpow : (2 ^ 53 <= 2 ^ e)%N) by (apply N.pow_le_mono_r; lia).
  destruct (step_c_cases e (next_draw g)) as [[Hb ->]|[Hb ->]].
  - apply increment_test in Hb; [|exact Hhi].
    destruct (N.eqb_spec (bits53 (next_draw g)) 0) as [_|Hne]; [reflexivity|].
    exfalso. nia.
  - destruct (N.eqb_spec (bits53 (next_draw g)) 0) as [E|_]; [|reflexivity].
    exfalso. assert (Ht : (bits53 (next_draw g) * 2 ^ e < 2 ^ 53)%N).
    { rewrite E. simpl. reflexivity. }
    apply increment_test in Ht; [|exact Hhi]. congruence.
Qed.

(** A run of [add] calls reads one draw per call and nothing else of the
    generator. *)
Lemma add_each_rng (items : list Item) (mc : MorrisCounter) (g : Rng) :
  snd (snd (add_each items (mc, g))) = advance (length items) g.
Proof.
  revert mc g. induction items as [|x xs IH]; intros mc g.
  - simpl. destruct g as [t p]. unfold advance. simpl. f_equal. lia.
  - cbn [add_each]. unfold mbind, M_bind. rewrite add_run, IH.
    unfold advance. cbn [tape pos length]. f_equal. lia.
Qed.

Lemma add_each_c_le (items : list Item) (mc : MorrisCounter) (g : Rng) :
  (c (fst (snd (add_each items (mc, g)))) <= c mc + N.of_nat (length items))%N.
Proof.
  revert mc g. induction items as [|x xs IH]; intros mc g.
  - simpl. lia.
  - cbn [add_each]. unfold mbind, M_bind. rewrite add_run.
    etransitivity; [apply IH|]. cbn [c length].
    destruct (step_c_cases (c mc) (next_draw g)) as [[_ ->]|[_ ->]]; lia.
Qed.

(** After [n] calls of [add] the generator has moved by exactly [n]
    draws, its tape untouched, and the exponent has grown by at most
    [n]: the estimate is at most [2^n] times what it was. *)
Theorem add_each_budget (items : list Item) (s : State) :
  let s' := snd (add_each items s) in
  snd s' = advance (length items) (snd s)
  /\ (c (fst s) <= c (fst s') <= c (fst s) + N.of_nat (length items))%N
  /\ fst (__len__ s') <= 2 ^ Z.of_nat (length items) * fst (__len__ s).
Proof.
  destruct s as [mc g]. cbn zeta. cbn [fst snd].
  pose proof (add_each_c_ge items (mc, g)) as Hge.
  pose proof (add_each_c_le items mc g) as Hle.
  pose proof (add_each_rng items mc g) as Hrng.
  destruct (snd (add_each items (mc, g))) as [mc' g'].
  cbn [fst snd] in *. split; [exact Hrng|]. split; [lia|].
  rewrite !len_run. cbn [fst].
  rewrite <- Z.pow_add_r by lia. apply Z.pow_le_mono_r; lia.
Qed.

Lemma add_each_c_cap (items : list Item) (mc : MorrisCounter) (g : Rng) :
  (c (fst (snd (add_each items (mc, g)))) <= N.max (c mc) 1075)%N.
Proof.
  revert mc g. induction items as [|x xs IH]; intros mc g.
  - simpl. lia.
  - cbn [add_each]. unfold mbind, M_bind. rewrite add_run.
    etransitivity; [apply IH|]. cbn [c].
    destruct (N.le_gt_cases (c mc) 1074) as [Hs|Hl].
    + destruct (step_c_cases (c mc) (next_draw g)) as [[_ ->]|[_ ->]]; lia.
    + rewrite (step_c_stuck _ _ Hl). lia.
Qed.

(** The counter saturates: no run of [add] calls takes the exponent
    beyond 1075, and a counter at 1075 or more never moves again. In
    particular a fresh counter never reports more than [2^1075]. *)
Theorem add_each_saturates (items : list Item) (s : State) :
  let e := c (fst s) in
  let e' := c (fst (snd (add_each items s))) in
  (e <= e')%N /\ (e' <= N.max e 1075)%N
  /\ fst (__len__ (snd (add_each items (new, snd s)))) <= 2 ^ 1075.
Proof.
  destruct s as [mc g]. cbn zeta. cbn [fst snd].
  split; [apply (add_each_c_ge items (mc, g))|].
  split; [apply add_each_c_cap|].
  pose proof (add_each_c_cap items new g) as Hcap.
  destruct (snd (add_each items (new, g))) as [mc' g'].
  rewrite len_run. cbn [fst] in *. apply Z.pow_le_mono_r; [lia|].
  change (c new) with 0%N in Hcap. lia.
Qed.

(** The counter after a run depends on the generator only through the
    draws the run reads. *)
Lemma add_each_agree (xs ys : list Item) (mc : MorrisCounter) (g1 g2 : Rng) :
  length xs = length ys ->
  (forall i, (i < length xs)%nat ->
     tape g1 (pos g1 + i)%nat = tape g2 (pos g2 + i)%nat) ->
  fst (snd (add_each xs (mc, g1))) = fst (snd (add_each ys (mc, g2))).
Proof.
  revert ys mc g1 g2.
  induction xs as [|x xs IH]; intros [|y ys] mc g1 g2 Hlen Hd;
    try discriminate; [reflexivity|].
  cbn [add_each]. unfold mbind, M_bind. rewrite !add_run.
  assert (H0 : next_draw g1 = next_draw g2).
  { unfold next_draw. specialize (Hd 0%nat). rewrite !Nat.add_0_r in Hd.
    apply Hd. simpl. lia. }
  rewrite H0. apply IH.
  - simpl in Hlen. lia.
  - intros i Hi. unfold advance. cbn [tape pos].
    specialize (Hd (S i)). simpl in Hd.
    replace (pos g1 + 1 + i)%nat with (pos g1 + S i)%nat by lia.
    replace (pos g2 + 1 + i)%nat with (pos g2 + S i)%nat by lia.
    apply Hd. lia.
Qed.

(** A run can be replayed: two runs of the same length from the same
    counter, on generators that agree on the next draws (as many as the
    run has calls), end at the same exponent and estimate, whatever the
    items and whatever the generators hold elsewhere. *)
Theorem add_each_replay (xs ys : list Item) (mc : MorrisCounter) (g1 g2 : Rng) :
  length xs = length ys ->
  (forall i, (i < length xs)%nat ->
     tape g1 (pos g1 + i)%nat = tape g2 (pos g2 + i)%nat) ->
  c (fst (snd (add_each xs (mc, g1)))) = c (fst (snd (add_each ys (mc, g2))))
  /\ fst (len (snd (add_each xs (mc, g1)))) = fst (len (snd (add_each ys (mc, g2)))).
Proof.
  intros Hlen Hd. pose proof (add_each_agree xs ys mc g1 g2 Hlen Hd) as H.
  destruct (snd (add_each xs (mc, g1))) as [m1 h1].
  destruct (snd (add_each ys (mc, g2))) as [m2 h2].
  cbn [fst] in *. subst m2. split; reflexivity.
Qed.

(** The builtin [len(mc)] returns [2^c] up to exponent 62 and raises
    [OverflowError] from 63 on; either way the counter and the generator
    are left as they were. *)
Theorem builtin_len_cases (s : State) :
  len s = ((if (c (fst s) <? 63)%N then Ok (2 ^ Z.of_N (c (fst s)))
            else Raise OverflowError), s).
Proof.
  destruct s as [mc g]. cbn [fst].
  destruct (N.ltb_spec (c mc) 63) as [Hlt|Hge].
  - apply builtin_len_spec. exact Hlt.
  - unfold len. rewrite len_run.
    assert (H : sys_maxsize < 2 ^ Z.of_N (c mc)).
    { unfold sys_maxsize.
      assert (2 ^ 63 <= 2 ^ Z.of_N (c mc)) by (apply Z.pow_le_mono_r; lia).
      lia. }
    apply Z.leb_gt in H. rewrite H. reflexivity.
Qed.

End MorrisCounterRuns.

Lemma add_exact_rate_witness :
  Morris.c (fst (snd (Morris.add "word"%string
                        ({| Morris.c := 3 |}, const_rng half_draw))))
  = if (bits53 (next_draw (const_rng half_draw)) <? 2 ^ (53 - 3))%N
    then (3 + 1)%N else 3%N.
Proof.
  apply (add_exact_rate "word"%string 3%N (const_rng half_draw)).
  vm_compute. discriminate.
Defined.

Lemma add_resolution_floor_witness :
  Morris.c (fst (snd (Morris.add "word"%string
                        ({| Morris.c := 60 |}, const_rng zero_draw))))
  = if (bits53 (next_draw (const_rng zero_draw)) =? 0)%N
    then (60 + 1)%N else 60%N.
Proof.
  apply (add_resolution_floor "word"%string 60%N (const_rng zero_draw));
    vm_compute; discriminate.
Defined.

Lemma add_each_replay_witness :
  let xs := ["a"; "b"; "c"]%string in
  let ys := ["x"; "y"; "z"]%string in
  Morris.c (fst (snd (Morris.add_each xs (Morris.new, const_rng half_draw))))
  = Morris.c (fst (snd (Morris.add_each ys (Morris.new, advance 5 (const_rng half_draw)))))
  /\ fst (Morris.len (snd (Morris.add_each xs (Morris.new, const_rng half_draw))))
     = fst (Morris.len (snd (Morris.add_each ys (Morris.new, advance 5 (const_rng half_draw))))).
Proof.
  apply (add_each_replay ["a"; "b"; "c"]%string ["x"; "y"; "z"]%string
           Morris.new (const_rng half_draw) (advance 5 (const_rng half_draw))).
  - reflexivity.
  - intros i Hi. reflexivity.
Defined.

(** ** The averaged ensemble, continued *)

Section EnsembleRuns.

Import Morris Ensemble Tables.

Context {Item : Type}.

Lemma step_c_fresh (u : draw) : step_c 0 u = 1%N.
Proof.
  destruct (step_c_cases 0 u) as [[_ ->]|[Hb _]]; [reflexivity|].
  apply Qltb_ge in Hb. destruct (value_range u) as [_ Hlt].
  exfalso. apply (Qlt_not_le _ _ Hlt). exact Hb.
Qed.

(** One round of the inner loop, counter by counter. *)
Lemma round_spec (k : nat) (word : Item) (mcs : list MorrisCounter) (g : Rng) :
  length mcs = k ->
  exists mcs1,
    add_all k word (mcs, g) = Ok (tt, (mcs1, advance k g))
    /\ length mcs1 = k
    /\ (forall j mc, mcs !! j = Some mc ->
          mcs1 !! j = Some {| c := step_c (c mc) (tape g (pos g + j)%nat) |}).
Proof.
  intros Hk.
  destruct (for_add_window word k 0 mcs g) as (mcs1 & Hrun & Hl & _ & Hin);
    [lia|].
  exists mcs1. split; [exact Hrun|]. split; [lia|].
  intros j mc Hj. rewrite (Hin j mc); [|split; [lia|]|exact Hj].
  - rewrite Nat.sub_0_r, add_run. reflexivity.
  - apply lookup_lt_Some in Hj. lia.
Qed.

Lemma estimate_small (mcs : list MorrisCounter) (g : Rng) :
  Forall (fun mc => (c mc < 63)%N) mcs ->
  estimate (mcs, g)
  = Ok (np_mean (map (fun mc => 2 ^ Z.of_N (c mc)) mcs), (mcs, g)).
Proof.
  intros Hsmall. unfold estimate, mbind, EM_bind. cbn [fst].
  rewrite (lens_small (length mcs) 0 mcs g) by (try lia; exact Hsmall).
  rewrite drop_0, firstn_all. reflexivity.
Qed.

Lemma len_at_big (j : nat) (mcs : list MorrisCounter) (mc : MorrisCounter) (g : Rng) :
  mcs !! j = Some mc -> (63 <= c mc)%N ->
  len_at j (mcs, g) = Raise OverflowError.
Proof.
  intros Hj Hc. unfold len_at, mbind, EM_bind, at_index. simpl. rewrite Hj.
  assert (H : sys_maxsize < 2 ^ Z.of_N (c mc)).
  { unfold sys_maxsize.
    assert (2 ^ 63 <= 2 ^ Z.of_N (c mc)) by (apply Z.pow_le_mono_r; lia).
    lia. }
  apply Z.leb_gt in H. rewrite H. reflexivity.
Qed.

Lemma lens_big (n i : nat) (mcs : list MorrisCounter) (g : Rng) :
  (i + n <= length mcs)%nat ->
  Exists (fun mc => (63 <= c mc)%N) (take n (drop i mcs)) ->
  lens (seq i n) (mcs, g) = Raise OverflowError.
Proof.
  revert i. induction n as [|n IH]; intros i Hlen Hbig.
  - rewrite take_0 in Hbig. inversion Hbig.
  - destruct (lookup_lt_is_Some_2 mcs i) as [mci Hi]; [lia|].
    rewrite (drop_S mcs mci i Hi) in Hbig. cbn [take] in Hbig.
    cbn [seq lens]. unfold mbind, EM_bind.
    destruct (N.lt_ge_cases (c mci) 63) as [Hs|Hl].
    + rewrite (len_at_small i mcs mci g Hi Hs).
      fold (@mbind EM _). unfold mbind, EM_bind.
      rewrite (IH (S i)); [reflexivity|lia|].
      apply Exists_cons in Hbig as [Hbad|Hrest]; [lia|exact Hrest].
    + rewrite (len_at_big i mcs mci g Hi Hl). reflexivity.
Qed.

Lemma Qdiv_fraction (n d : Z) :
  0 < d ->
  Qnum (inject_Z n / inject_Z d) = n
  /\ Z.pos (Qden (inject_Z n / inject_Z d)) = d.
Proof.
  intros Hd. destruct d as [|p|p]; try lia.
  unfold Qdiv, Qmult, Qinv, inject_Z. cbn. split; [lia|reflexivity].
Qed.

Lemma sum_replicate (n : nat) (z : Z) : sum (replicate n z) = Z.of_nat n * z.
Proof.
  induction n as [|n IH]; [reflexivity|].
  cbn [replicate]. rewrite sum_cons, IH. lia.
Qed.

(** The estimate of a non-empty ensemble, in full: [OverflowError] as
    soon as one exponent is 63 or more; otherwise a value, with the
    counters and the generator left as they were, and while the sum of
    the [2^c_j] is below [2^53] that value is their mean rounded to
    binary64. *)
Theorem estimate_cases (mcs : list MorrisCounter) (g : Rng) :
  mcs <> [] ->
  if forallb (fun mc => (c mc <? 63)%N) mcs
  then exists q,
         estimate (mcs, g) = Ok (q, (mcs, g))
         /\ (total mcs < 2 ^ 53 -> q = Float.round53 (exact_mean mcs))
  else estimate (mcs, g) = Raise OverflowError.
Proof.
  intros _. destruct (forallb _ mcs) eqn:E.
  - eexists. split; [|reflexivity]. apply estimate_value.
    apply Forall_forall. intros mc Hmc.
    rewrite forallb_forall in E. apply N.ltb_lt, E.
    apply list_elem_of_In. exact Hmc.
  - unfold estimate, mbind, EM_bind. cbn [fst].
    rewrite (lens_big (length mcs) 0 mcs g); [reflexivity|lia|].
    rewrite drop_0, firstn_all. clear -E.
    induction mcs as [|mc mcs IH]; [discriminate E|].
    cbn [forallb] in E. apply andb_false_iff in E as [E|E].
    + apply Exists_cons_hd. apply N.ltb_ge in E. exact E.
    + apply Exists_cons_tl, IH, E.
Qed.

(** The first line of the table is the same on every run: a fresh
    ensemble of [k >= 1] counters stands at exponent 1 throughout after
    its first round, whatever the draws, and its estimate is 2. *)
Theorem fresh_ensemble_first_round (k : nat) (word : Item) (g : Rng) :
  (0 < k)%nat ->
  exists q,
    bind (add_all k word (mcs_init k, g)) (fun r => estimate (snd r))
    = Ok (q, (replicate k (__init__ 1), advance k g))
    /\ (q == 2)%Q.
Proof.
  intros Hk.
  destruct (round_spec k word (mcs_init k) g) as (mcs1 & Hrun & Hl & Hin);
    [apply length_replicate|].
  assert (Hmcs1 : mcs1 = replicate k (__init__ 1)).
  { apply list_eq. intros j.
    destruct (decide (j < k)%nat) as [Hj|Hj].
    - rewrite (Hin j new) by (apply lookup_replicate; split; [reflexivity|exact Hj]).
      change (c new) with 0%N. rewrite step_c_fresh. symmetry.
      apply lookup_replicate. split; [reflexivity|exact Hj].
    - rewrite !lookup_ge_None_2; [reflexivity| |lia].
      rewrite length_replicate. lia. }
  subst mcs1. rewrite Hrun. cbn [bind snd].
  rewrite estimate_small
    by (apply Forall_replicate; vm_compute; reflexivity).
  eexists. split; [reflexivity|].
  unfold np_mean. rewrite length_map, length_replicate.
  rewrite (fmap_replicate (fun mc => 2 ^ Z.of_N (c mc))).
  cbn [c __init__]. rewrite sum_replicate.
  apply (round53_integer _ 2); [lia|].
  destruct (Qdiv_fraction (Z.of_nat k * 2 ^ Z.of_N 1) (Z.of_nat k)) as [-> ->];
    [lia|].
  change (2 ^ Z.of_N 1) with 2. lia.
Qed.

End EnsembleRuns.

Lemma estimate_cases_witness :
  if forallb (fun mc => (Morris.c mc <? 63)%N) (Ensemble.mcs_init 10)
  then exists q,
         Ensemble.estimate (Ensemble.mcs_init 10, const_rng half_draw)
         = Ok (q, (Ensemble.mcs_init 10, const_rng half_draw))
         /\ (Ensemble.total (Ensemble.mcs_init 10) < 2 ^ 53 ->
             q = Float.round53 (Ensemble.exact_mean (Ensemble.mcs_init 10)))
  else Ensemble.estimate (Ensemble.mcs_init 10, const_rng half_draw)
       = Raise OverflowError.
Proof.
  apply (estimate_cases (Ensemble.mcs_init 10) (const_rng half_draw)).
  vm_compute. discriminate.
Defined.

Lemma fresh_ensemble_first_round_witness :
  exists q,
    bind (Ensemble.add_all 10 "word"%string (Ensemble.mcs_init 10, const_rng zero_draw))
         (fun r => Ensemble.estimate (snd r))
    = Ok (q, (replicate 10 (Morris.__init__ 1), advance 10 (const_rng zero_draw)))
    /\ (q == 2)%Q.
Proof.
  apply (fresh_ensemble_first_round 10 "word"%string (const_rng zero_draw)).
  lia.
Defined.

Section AveragedLoop.

Import Morris Ensemble Tables.

Context {Item : Type}.

Lemma stride_next (k j : nat) (g : Rng) :
  next_draw (stride k j g) = tape g (pos g + j)%nat.
Proof. unfold next_draw, stride. cbn [tape pos]. f_equal. lia. Qed.

(** Counter [j]'s own run, one call unfolded: the first draw is cell [j]
    of this round and the rest is the run on the strides of the next
    round. *)
Lemma stride_unfold (k j : nat) (word : Item) (rest : list Item)
    (mc : MorrisCounter) (g : Rng) :
  fst (snd (add_each (word :: rest) (mc, stride k j g)))
  = fst (snd (add_each rest
      ({| c := step_c (c mc) (tape g (pos g + j)%nat) |},
       stride k j (advance k g)))).
Proof.
  cbn [add_each]. unfold mbind, M_bind. rewrite add_run, stride_next.
  apply add_each_agree; [reflexivity|].
  intros i _. unfold advance, stride. cbn [tape pos]. f_equal. lia.
Qed.

(** The table loop and the single counter compose: as long as no counter's
    own run reaches exponent 63, the loop over the words never raises,
    reads [k] draws per word, and leaves counter [j] exactly where a
    single [MorrisCounter] fed the same words would stand on the draws
    [j], [k + j], [2k + j], ... of the shared generator. *)
Theorem averaged_loop_counters (k : nat) (i : Z) (words : list Item)
    (mcs : list MorrisCounter) (g : Rng) :
  (0 < k)%nat -> length mcs = k ->
  (forall j mc, mcs !! j = Some mc ->
     (c (fst (snd (add_each words (mc, stride k j g)))) < 63)%N) ->
  exists rows mcs',
    averaged_loop k i words (mcs, g)
    = Ok (rows, (mcs', advance (k * length words) g))
    /\ length mcs' = k
    /\ (forall j mc, mcs !! j = Some mc ->
          mcs' !! j = Some (fst (snd (add_each words (mc, stride k j g))))).
Proof.
  intros Hk. revert i mcs g.
  induction words as [|word rest IH]; intros i mcs g Hlen Hsmall.
  - exists [], mcs. rewrite Nat.mul_0_r, advance_0.
    split; [reflexivity|]. split; [exact Hlen|].
    intros j mc Hj. rewrite Hj. destruct mc. reflexivity.
  - destruct (round_spec k word mcs g Hlen) as (mcs1 & Hrun & Hl1 & Hin).
    assert (Hback : forall j mc1, mcs1 !! j = Some mc1 ->
              exists mc, mcs !! j = Some mc
                /\ mc1 = {| c := step_c (c mc) (tape g (pos g + j)%nat) |}).
    { intros j mc1 Hj.
      destruct (lookup_lt_is_Some_2 mcs j) as [mc Hmc].
      { apply lookup_lt_Some in Hj. lia. }
      exists mc. split; [exact Hmc|]. rewrite (Hin j mc Hmc) in Hj. congruence. }
    assert (Hsmall1 : forall j mc1, mcs1 !! j = Some mc1 ->
              (c (fst (snd (add_each rest (mc1, stride k j (advance k g))))) < 63)%N).
    { intros j mc1 Hj. destruct (Hback j mc1 Hj) as (mc & Hmc & ->).
      rewrite <- (stride_unfold k j word rest mc g). apply Hsmall, Hmc. }
    assert (Hnow : Forall (fun mc => (c mc < 63)%N) mcs1).
    { apply Forall_lookup. intros j mc1 Hj.
      eapply N.le_lt_trans; [|apply (Hsmall1 j mc1 Hj)].
      apply (add_each_c_ge rest (mc1, stride k j (advance k g))). }
    destruct (IH (i + 1) mcs1 (advance k g) Hl1 Hsmall1)
      as (rows & mcs' & Hloop & Hl' & Hfin).
    cbn [averaged_loop]. unfold mbind, EM_bind. rewrite Hrun.
    rewrite (estimate_small mcs1 (advance k g) Hnow).
    fold (@mbind EM _). unfold mbind, EM_bind. rewrite Hloop.
    unfold mret, EM_ret. rewrite advance_advance.
    replace (k + k * length rest)%nat with (k * length (word :: rest))%nat
      by (cbn [length]; lia).
    eexists _, mcs'. split; [reflexivity|]. split; [exact Hl'|].
    intros j mc Hj. rewrite stride_unfold. apply Hfin, Hin, Hj.
Qed.

(** When a counter of the list already stands at exponent 63 or more, the
    loop stops on its first word with [OverflowError]: the mean cannot
    be read. *)
Theorem averaged_loop_overflow (k : nat) (i : Z) (word : Item) (rest : list Item)
    (mcs : list MorrisCounter) (g : Rng) :
  length mcs = k ->
  Exists (fun mc => (63 <= c mc)%N) mcs ->
  averaged_loop k i (word :: rest) (mcs, g) = Raise OverflowError.
Proof.
  intros Hlen Hbig.
  destruct (round_spec k word mcs g Hlen) as (mcs1 & Hrun & Hl1 & Hin).
  cbn [averaged_loop]. unfold mbind, EM_bind. rewrite Hrun.
  assert (Hbig1 : Exists (fun mc => (63 <= c mc)%N) mcs1).
  { apply Exists_exists in Hbig as (mc & Hmc & Hc).
    apply list_elem_of_lookup in Hmc as [j Hj].
    apply Exists_exists. eexists. split.
    - apply list_elem_of_lookup. exists j. apply (Hin j mc Hj).
    - cbn [c]. etransitivity; [exact Hc|apply step_c_ge]. }
  unfold estimate, mbind, EM_bind. cbn [fst].
  rewrite (lens_big (length mcs1) 0 mcs1 (advance k g)); [reflexivity|lia|].
  rewrite drop_0, firstn_all. exact Hbig1.
Qed.

End AveragedLoop.

Lemma averaged_loop_counters_witness :
  let words := ["stately"; "plump"; "buck"]%string in
  let mcs := Ensemble.mcs_init 2 in
  let g := const_rng half_draw in
  exists rows mcs',
    Tables.averaged_loop 2 0 words (mcs, g)
    = Ok (rows, (mcs', advance (2 * length words) g))
    /\ length mcs' = 2%nat
    /\ (forall j mc, mcs !! j = Some mc ->
          mcs' !! j
          = Some (fst (snd (Morris.add_each words (mc, Tables.stride 2 j g))))).
Proof.
  apply (averaged_loop_counters 2 0 ["stately"; "plump"; "buck"]%string
           (Ensemble.mcs_init 2) (const_rng half_draw)).
  - lia.
  - reflexivity.
  - intros j mc Hj. destruct j as [|[|j]]; simpl in Hj;
      [injection Hj as <-; vm_compute; reflexivity
      |injection Hj as <-; vm_compute; reflexivity
      |discriminate Hj].
Defined.

Lemma averaged_loop_overflow_witness :
  Tables.averaged_loop 2 0 ["stately"; "plump"]%string
    ([Morris.__init__ 0; Morris.__init__ 63], const_rng half_draw)
  = Raise OverflowError.
Proof.
  apply (averaged_loop_overflow 2 0 "stately"%string ["plump"%string]
           [Morris.__init__ 0; Morris.__init__ 63] (const_rng half_draw)).
  - reflexivity.
  - apply Exists_cons_tl, Exists_cons_hd. vm_compute. discriminate.
Defined.

(** ** The smallest of the random hashes *)

Section LogLogDemo.

Import LogLog.

Lemma join_bits_binary (bits : list bool) :
  Forall (fun ch => ch = 48%N \/ ch = 49%N) (join_bits bits).
Proof.
  unfold join_bits. apply Forall_forall. intros ch Hch.
  apply list_elem_of_In, in_map_iff in Hch as (b & <- & _).
  destruct b; [right|left]; reflexivity.
Qed.

Lemma hashes_spec (k : nat) (g : BitRng) :
  length (fst (hashes k g)) = k
  /\ Forall bit_string (fst (hashes k g))
  /\ snd (hashes k g)
     = {| bit_tape := bit_tape g; bit_pos := (bit_pos g + 32 * k)%nat |}.
Proof.
  revert g. induction k as [|k IH]; intros g.
  - cbn [hashes fst snd]. split; [reflexivity|]. split; [constructor|].
    destruct g as [t p]. cbn [bit_tape bit_pos]. f_equal. lia.
  - cbn [hashes]. unfold randint01.
    set (g1 := {| bit_tape := bit_tape g; bit_pos := (bit_pos g + 32)%nat |}).
    destruct (IH g1) as (Hl & Hb & Hg).
    destruct (hashes k g1) as [hs g2]. cbn [fst snd] in *.
    split; [cbn [length]; f_equal; exact Hl|]. split.
    + constructor; [|exact Hb]. split; [|apply join_bits_binary].
      unfold join_bits. rewrite !length_map, length_seq. reflexivity.
    + rewrite Hg. unfold g1. cbn [bit_tape bit_pos]. f_equal. lia.
Qed.

(** Among strings of ['0'] and ['1'] of one length, the order of [str]
    and the run of leading zeros go together. *)
Lemma leading_zeros_order (s t : list char) :
  Forall (fun ch => ch = 48%N \/ ch = 49%N) s ->
  Forall (fun ch => ch = 48%N \/ ch = 49%N) t ->
  length s = length t ->
  if str_ltb t s then (leading_zeros s <= leading_zeros t)%nat
  else (leading_zeros t <= leading_zeros s)%nat.
Proof.
  intros Hs. revert t. induction Hs as [|a s Ha Hs IH]; intros t Ht Hlen.
  - destruct t; [simpl; lia|discriminate Hlen].
  - destruct Ht as [|b t Hb Ht]; [discriminate Hlen|].
    specialize (IH t Ht ltac:(simpl in Hlen; lia)).
    cbn [str_ltb leading_zeros].
    destruct Ha as [-> | ->], Hb as [-> | ->]; simpl;
      try destruct (str_ltb t s); lia.
Qed.

Lemma min_str_leading_zeros (x : list char) (rest : list (list char)) :
  Forall bit_string (x :: rest) ->
  let h := fold_left (fun best y => if str_ltb y best then y else best) rest x in
  h ∈ x :: rest
  /\ forall h', h' ∈ x :: rest -> (leading_zeros h' <= leading_zeros h)%nat.
Proof.
  revert x. induction rest as [|y rest IH]; intros x Hall.
  - cbn. split; [left|]. intros h' Hh. apply list_elem_of_singleton in Hh as ->. lia.
  - cbn [fold_left]. cbn zeta.
    apply Forall_cons in Hall as [Hx Hall]. apply Forall_cons in Hall as [Hy Hall].
    pose proof (leading_zeros_order x y (proj2 Hx) (proj2 Hy)
                  ltac:(destruct Hx as [-> _], Hy as [-> _]; reflexivity)) as Hord.
    destruct (str_ltb y x).
    + destruct (IH y) as [Hin Hmax]; [constructor; assumption|].
      split.
      * apply elem_of_cons in Hin as [->|Hin]; [right; left|right; right; exact Hin].
      * intros h' Hh. apply elem_of_cons in Hh as [->|Hh].
        -- etransitivity; [exact Hord|]. apply Hmax. left.
        -- apply Hmax. exact Hh.
    + destruct (IH x) as [Hin Hmax]; [constructor; assumption|].
      split.
      * apply elem_of_cons in Hin as [->|Hin]; [left|right; right; exact Hin].
      * intros h' Hh. apply elem_of_cons in Hh as [->|Hh].
        -- apply Hmax. left.
        -- apply elem_of_cons in Hh as [->|Hh].
           ++ etransitivity; [exact Hord|]. apply Hmax. left.
           ++ apply Hmax. right. exact Hh.
Qed.

(** The intuition the notebook prints: in every iteration, for every
    state of numpy's generator, [min(hashes)] never fails, is one of the
    [2^i] hashes drawn, and no hash of the batch starts with a longer run
    of zeros; the batch uses [32 * 2^i] bits of the generator. *)
Theorem demo_row_leading_zeros (i : nat) (g : BitRng) :
  let k := Z.to_nat (2 ^ Z.of_nat i) in
  exists h,
    fst (demo_row i g) = Some (2 ^ Z.of_nat i, h)
    /\ length h = 32%nat
    /\ h ∈ fst (hashes k g)
    /\ (forall h', h' ∈ fst (hashes k g) ->
          (leading_zeros h' <= leading_zeros h)%nat)
    /\ bit_pos (snd (demo_row i g)) = (bit_pos g + 32 * k)%nat.
Proof.
  cbn zeta. unfold demo_row.
  destruct (hashes_spec (Z.to_nat (2 ^ Z.of_nat i)) g) as (Hl & Hb & Hg).
  destruct (hashes (Z.to_nat (2 ^ Z.of_nat i)) g) as [hs g'].
  cbn [fst snd] in *.
  destruct hs as [|x rest].
  - exfalso. simpl in Hl.
    assert (0 < 2 ^ Z.of_nat i) by (apply Z.pow_pos_nonneg; lia). lia.
  - destruct (min_str_leading_zeros x rest Hb) as [Hin Hmax].
    cbn [min_str fst snd].
    eexists. split; [reflexivity|]. split; [|split; [exact Hin|split; [exact Hmax|]]].
    + rewrite Forall_forall in Hb. apply (Hb _ Hin).
    + rewrite Hg. reflexivity.
Qed.

End LogLogDemo.

(** ** The table of the single counter *)

Section CounterLoop.

Import Morris Tables.

Context {Item : Type}.

Lemma counter_row_small (i : Z) (s : State) :
  (c (fst s) < 63)%N ->
  counter_row i s
  = Ok ({| row_i := i;
           row_estimate := inject_Z (2 ^ Z.of_N (c (fst s)));
           row_error := if i =? 0 then 0%Q
                        else Float.round53
                               (Qabs (inject_Z (i - 2 ^ Z.of_N (c (fst s))))
                                / inject_Z i) |}, s).
Proof.
  intros Hc. destruct s as [mc g]. cbn [fst] in *.
  unfold counter_row, mbind, CM_bind, len_mc.
  rewrite (builtin_len_spec mc g Hc).
  destruct (i =? 0); [reflexivity|].
  fold (@mbind CM _). unfold mbind, CM_bind.
  rewrite (builtin_len_spec mc g Hc). reflexivity.
Qed.

Lemma add_each_cons (word : Item) (rest : list Item) (s : State) :
  snd (add_each (word :: rest) s) = snd (add_each rest (snd (add word s))).
Proof.
  cbn [add_each]. unfold mbind, M_bind.
  destruct (add word s) as [[] s1]. reflexivity.
Qed.

Lemma counter_loop_cons (i : Z) (word : Item) (rest : list Item) (s : State) :
  counter_loop i (word :: rest) s
  = bind ((if i mod every =? 0
           then r ← counter_row i; mret [r]
           else mret []) (snd (add word s)))
      (fun p => bind (counter_loop (i + 1) rest (snd p))
                  (fun q => Ok (fst p ++ fst q, snd q))).
Proof.
  cbn [counter_loop]. unfold mbind at 1, CM_bind at 1, call.
  destruct (add word s) as [[] s1]. cbn [snd].
  unfold mbind at 1, CM_bind at 1.
  match goal with
  | |- match ?m s1 with _ => _ end = _ =>
      destruct (m s1) as [[printed s2]|e]; [|reflexivity]
  end.
  cbn [bind fst snd]. unfold mbind, CM_bind.
  destruct (counter_loop (i + 1) rest s2) as [[rows s3]|e]; reflexivity.
Qed.

Lemma counter_loop_run (words : list Item) (i : Z) (s : State) :
  (c (fst (snd (add_each words s))) < 63)%N ->
  exists rows,
    counter_loop i words s = Ok (rows, snd (add_each words s))
    /\ Forall (row_ok i (length words) (c (fst s))
                 (c (fst (snd (add_each words s))))) rows.
Proof.
  revert i s. induction words as [|word rest IH]; intros i s Hfin.
  - exists []. split; [reflexivity|constructor].
  - rewrite add_each_cons in *. rewrite counter_loop_cons.
    set (s1 := snd (add word s)) in *.
    assert (Hstep : (c (fst s) <= c (fst s1))%N).
    { unfold s1. destruct s as [mc g]. rewrite add_run.
      cbn [fst snd c]. apply step_c_ge. }
    pose proof (add_each_c_ge rest s1) as Hmono.
    destruct (IH (i + 1) s1 Hfin) as (rows & Hloop & Hrows).
    assert (Hweak : Forall (row_ok i (length (word :: rest)) (c (fst s))
                      (c (fst (snd (add_each rest s1))))) rows).
    { eapply Forall_impl; [exact Hrows|].
      intros r (Hm & Hi & e & He & Hr). split; [exact Hm|]. split.
      - cbn [length]. lia.
      - exists e. split; [lia|exact Hr]. }
    destruct (i mod every =? 0) eqn:Hprint.
    + unfold mbind, CM_bind.
      rewrite (counter_row_small i s1) by lia.
      unfold mret, CM_ret. cbn [bind fst snd]. rewrite Hloop. cbn [bind fst snd].
      eexists. split; [reflexivity|].
      constructor; [|exact Hweak].
      split; [apply Z.eqb_eq; exact Hprint|]. split; [cbn [row_i length]; lia|].
      exists (c (fst s1)). split; [lia|reflexivity].
    + unfold mret, CM_ret. cbn [bind fst snd]. rewrite Hloop. cbn [bind fst snd].
      eexists. split; [reflexivity|exact Hweak].
Qed.

(** Printing does not disturb the counter: when the run of [add] calls
    ends below exponent 63, the loop never raises and leaves the counter
    and the generator exactly as the bare [add] calls do; every printed
    line sits at a multiple of 20000 and shows a power of two between the
    first and the last estimate. *)
Theorem counter_loop_state (words : list Item) (s : State) :
  (c (fst (snd (add_each words s))) < 63)%N ->
  exists rows,
    counter_loop 0 words s = Ok (rows, snd (add_each words s))
    /\ Forall (row_ok 0 (length words) (c (fst s))
                 (c (fst (snd (add_each words s))))) rows.
Proof. apply counter_loop_run. Qed.

(** The loop that returns its lines is the loop with its output kept,
    read at its end: the same lines and state when it completes, the
    same exception when it stops. *)
Lemma counter_loop_run_agree (words : list Item) (i : Z) (s : State) :
  counter_loop i words s
  = match counter_run i words s with
    | (rows, Ok s') => Ok (rows, s')
    | (_, Raise e) => Raise e
    end.
Proof.
  revert i s. induction words as [|word rest IH]; intros i s; [reflexivity|].
  rewrite counter_loop_cons. cbn [counter_run].
  destruct (i mod every =? 0).
  - unfold mbind, CM_bind.
    destruct (counter_row i (snd (add word s))) as [[r s2]|e]; [|reflexivity].
    unfold mret, CM_ret. cbn [bind fst snd]. rewrite IH.
    destruct (counter_run (i + 1) rest s2) as [rows [s3|e]]; reflexivity.
  - unfold mret, CM_ret. cbn [bind fst snd]. rewrite IH.
    destruct (counter_run (i + 1) rest (snd (add word s))) as [rows [s3|e]];
      reflexivity.
Qed.

(** The first line of the table is the same on every run of a fresh
    counter: index 0, estimate 2, error 0, whatever the words and the
    draws, and however the loop goes on after it. *)
Theorem counter_loop_first_row (word : Item) (rest : list Item) (g : Rng) :
  exists rows out,
    counter_run 0 (word :: rest) (new, g)
    = ({| row_i := 0; row_estimate := inject_Z 2; row_error := 0%Q |} :: rows,
       out).
Proof.
  cbn [counter_run]. rewrite add_run. change (c new) with 0%N.
  rewrite step_c_fresh. cbn [snd].
  change (0 mod every =? 0) with true. cbn iota.
  rewrite (counter_row_small 0 ({| c := 1 |}, advance 1 g))
    by (vm_compute; reflexivity).
  destruct (counter_run (0 + 1) rest ({| c := 1 |}, advance 1 g)) as [rows out].
  exists rows, out. reflexivity.
Qed.

(** A line cannot be printed for a counter at exponent 63 or more: at an
    index that is a multiple of 20000 the loop stops with
    [OverflowError]. *)
Theorem counter_loop_overflow (i : Z) (word : Item) (rest : list Item) (s : State) :
  (63 <= c (fst s))%N -> i mod every = 0 ->
  counter_loop i (word :: rest) s = Raise OverflowError.
Proof.
  intros Hc Hi. destruct s as [mc g]. cbn [fst] in Hc.
  rewrite counter_loop_cons, add_run. cbn [snd].
  apply Z.eqb_eq in Hi. rewrite Hi.
  unfold counter_row, mbind, CM_bind, len_mc, len.
  rewrite len_run.
  assert (H : sys_maxsize < 2 ^ Z.of_N (step_c (c mc) (next_draw g))).
  { unfold sys_maxsize. pose proof (step_c_ge (c mc) (next_draw g)).
    assert (2 ^ 63 <= 2 ^ Z.of_N (step_c (c mc) (next_draw g)))
      by (apply Z.pow_le_mono_r; lia).
    lia. }
  cbn [c]. apply Z.leb_gt in H. rewrite H. reflexivity.
Qed.

End CounterLoop.

Lemma counter_loop_state_witness :
  let words := ["stately"; "plump"; "buck"]%string in
  let s := (Morris.new, const_rng half_draw) in
  exists rows,
    Tables.counter_loop 0 words s = Ok (rows, snd (Morris.add_each words s))
    /\ Forall (Tables.row_ok 0 (length words) (Morris.c (fst s))
                 (Morris.c (fst (snd (Morris.add_each words s))))) rows.
Proof.
  apply (counter_loop_state ["stately"; "plump"; "buck"]%string
           (Morris.new, const_rng half_draw)).
  vm_compute. reflexivity.
Defined.

(** A run that stops after its first line: on draws that are all [0.0]
    the counter climbs with every word, so with 20001 words the line
    at index 20000 cannot be formatted; the line at index 0 has been
    printed all the same. *)
Example counter_run_stopped :
  Tables.counter_run 0 (replicate (Z.to_nat 20001) "word"%string) (Morris.new, const_rng zero_draw)
  = ([{| Tables.row_i := 0; Tables.row_estimate := inject_Z 2;
         Tables.row_error := 0%Q |}], Raise OverflowError).
Proof. vm_compute. reflexivity. Qed.

Lemma counter_loop_overflow_witness :
  Tables.counter_loop 20000 ["stately"; "plump"]%string
    (Morris.__init__ 63, const_rng half_draw)
  = Raise OverflowError.
Proof.
  apply (counter_loop_overflow 20000 "stately"%string ["plump"%string]
           (Morris.__init__ 63, const_rng half_draw)).
  - vm_compute. discriminate.
  - reflexivity.
Defined.
